(** * Sliding-window gesture inference: a shallow embedding of
      [scripts/inference.py]

    The development follows [generate_gestures] (window scheduling, seeding,
    overlap blending, aggregation) and the un-normalisation step of [main].

    Modelling conventions.
    - Python [int]s are [Z]; Python and numpy/torch floating-point numbers are
      idealised as exact rationals [Q].  The properties established below are
      about counts, shapes, control flow and the algebraic form of the
      blending formula; none of them depends on rounding.
    - A 2-D array or a tensor of batch size one is a list of frames, a frame
      being the list of its channels.  An array without rows therefore carries
      no channel count.
    - Exceptions are values of [exn]; a computation that raises returns
      [inl e].
    - numpy arrays obtained from a tensor or by basic slicing are views: they
      are modelled as windows into buffers of an explicit heap, so that
      in-place writes are seen through every alias.
    - The predictor is a black box returning a fresh tensor or raising; each
      invocation is logged so that theorems can speak about the calls made. *)

From Stdlib Require Import ZArith QArith Qround Qfield Lia Lqa.
From stdpp Require Import base list strings gmap.

Abbreviation frame := (list Q).
Abbreviation matrix := (list (list Q)).

(** ** Exceptions *)

Inductive exn : Type :=
| IndexError
| ZeroDivisionError
| ValueError
| RuntimeError
| AttributeError
| ModelError (msg : string).

Abbreviation result A := (sum exn A).

Definition rbind {A B} (r : result A) (k : A → result B) : result B :=
  match r with
  | inl e => inl e
  | inr a => k a
  end.

(** ** Python slicing *)

(** A slice bound [k] on a sequence of length [len]: negative bounds count
    from the end, and every bound is clamped to [0..len]. *)
Definition py_clamp (len : nat) (k : Z) : nat :=
  if (k <? 0)%Z then Z.to_nat (Z.max 0 (Z.of_nat len + k))
  else Z.to_nat (Z.min k (Z.of_nat len)).

(** [l[lo:hi]], a missing bound being [None]. *)
Definition py_slice {A} (l : list A) (lo hi : option Z) : list A :=
  let a := from_option (py_clamp (length l)) 0 lo in
  let b := from_option (py_clamp (length l)) (length l) hi in
  take (b - a) (drop a l).

(** [range(0, n)] *)
Definition py_range (n : Z) : list nat := seq 0 (Z.to_nat n).

(** Float division [a / b]. *)
Definition py_truediv (a b : Q) : result Q :=
  if Qeq_bool b 0 then inl ZeroDivisionError else inr (a / b)%Q.

(** ** numpy and torch primitives *)

(** [x * k] and [x / k] for an array [x] and a Python integer [k] *)
Definition np_scale (x : frame) (k : Z) : frame :=
  (λ v, v * inject_Z k)%Q <$> x.
Definition np_divide (x : frame) (k : Z) : frame :=
  (λ v, v / inject_Z k)%Q <$> x.

(** Binary operation on two 1-D arrays, with numpy broadcasting. *)
Definition np_broadcast2 (f : Q → Q → Q) (a b : frame) : result frame :=
  if decide (length a = length b) then inr (zip_with f a b)
  else match a, b with
       | [x], _ => inr (f x <$> b)
       | _, [y] => inr ((λ x, f x y) <$> a)
       | _, _ => inl ValueError
       end.

(** The value stored by [dst[...] = v] into a 1-D slot of [width] channels;
    [err] is the library's shape-mismatch exception. *)
Definition broadcast_row (err : exn) (width : nat) (v : frame) : result frame :=
  if decide (length v = width) then inr v
  else match v with
       | [x] => inr (replicate width x)
       | _ => inl err
       end.

Fixpoint broadcast_rows (err : exn) (width : nat) (src : matrix) : result matrix :=
  match src with
  | [] => inr []
  | r :: src' =>
      rbind (broadcast_row err width r) (λ r',
      rbind (broadcast_rows err width src') (λ rs, inr (r' :: rs)))
  end.

(** The new contents of a [rows × cols] tensor after [dst[0, :, :] = src]. *)
Definition torch_setitem (rows cols : nat) (src : matrix) : result matrix :=
  rbind (broadcast_rows RuntimeError cols src) (λ src',
  if decide (length src' = rows) then inr src'
  else match src' with
       | [r] => inr (replicate rows r)
       | _ => inl RuntimeError
       end).

(** [torch.zeros((1, rows, cols))] *)
Definition torch_zeros (rows : Z) (cols : nat) : result matrix :=
  if (rows <? 0)%Z then inl RuntimeError
  else inr (replicate (Z.to_nat rows) (replicate cols 0%Q)).

(** [np.clip(x, a_min=lo, a_max=None)] on one channel *)
Definition np_clip_min (lo x : Q) : Q :=
  if Qlt_le_dec x lo then lo else x.

(** ** Data *)

Record word := Word { w_text : string; w_start : Q; w_end : Q }.

Record Args := {
  n_poses : Z;
  n_pre_poses : Z;
  motion_resampling_framerate : Z;
  data_mean : frame;
  data_std : frame
}.

(** Modelled from the spec: the vocabulary class behind [lang_model] is not
    part of the source file.  Section 4.2 of the specification gives it three
    reserved indices and a word-to-index mapping, [get_word_index] returning
    the mapped index of a known word and the UNKNOWN sentinel otherwise.  The
    method returns the vocabulary object as well, so that the absence of
    mutation is a statement about the embedding. *)
Record Vocab := {
  SOS_token : Z;
  EOS_token : Z;
  UNK_token : Z;
  word2index : gmap string Z
}.

Definition get_word_index (self : Vocab) (w : string) : Z * Vocab :=
  (default (UNK_token self) (word2index self !! w), self).

(** The predictor: its [pose_dim] attribute and its call
    [pose_decoder(in_text, words_lengths, pre_seq, None)]. *)
Record Decoder := {
  pose_dim : nat;
  forward : list Z → Z → matrix → result matrix
}.

(** One logged invocation of the predictor. *)
Record call := Call {
  in_text : list Z;
  words_lengths : Z;
  seed : matrix
}.

Definition invoke (dec : Decoder) (c : call) : result matrix :=
  forward dec (in_text c) (words_lengths c) (seed c).

(** ** Store and computations *)

Abbreviation loc := nat (only parsing).

(** A numpy array: rows [off .. off + rows - 1] of the buffer [base]. *)
Record ndarray := NdArray { base : loc; off : nat; rows : nat }.

Record mem := Mem {
  heap : list matrix;
  calls : list call;
  written : list (string * matrix)
}.

Definition empty_mem : mem := Mem [] [] [].

Definition M (A : Type) : Type := mem → result A * mem.

Definition ret {A} (a : A) : M A := λ m, (inr a, m).
Definition raise {A} (e : exn) : M A := λ m, (inl e, m).
Definition lift {A} (r : result A) : M A := λ m, (r, m).
Definition bind {A B} (c : M A) (k : A → M B) : M B :=
  λ m, match c m with
       | (inl e, m') => (inl e, m')
       | (inr a, m') => k a m'
       end.

Notation "x <- c ;; k" := (bind c (λ x, k))
  (at level 100, c at next level, right associativity).
Notation "c ;;; k" := (bind c (λ _, k))
  (at level 100, k at level 200, right associativity).

Definition alloc (t : matrix) : M loc :=
  λ m, (inr (length (heap m)), Mem (heap m ++ [t]) (calls m) (written m)).
Definition load (p : loc) : M matrix :=
  λ m, (inr (default [] (heap m !! p)), m).
Definition store (p : loc) (t : matrix) : M unit :=
  λ m, (inr tt, Mem (<[p := t]> (heap m)) (calls m) (written m)).
Definition log_call (c : call) : M unit :=
  λ m, (inr tt, Mem (heap m) (calls m ++ [c]) (written m)).
Definition write_file (path : string) (data : matrix) : M unit :=
  λ m, (inr tt, Mem (heap m) (calls m) (written m ++ [(path, data)])).

(** [a[lo:hi]] is a view on the same buffer. *)
Definition nd_slice (a : ndarray) (lo hi : option Z) : ndarray :=
  let s := from_option (py_clamp (rows a)) 0 lo in
  let e := from_option (py_clamp (rows a)) (rows a) hi in
  NdArray (base a) (off a + s) (e - s).

(** The rows seen through a view. *)
Definition nd_rows (h : list matrix) (a : ndarray) : matrix :=
  take (rows a) (drop (off a) (default [] (h !! base a))).

Definition nd_read (a : ndarray) : M matrix :=
  λ m, (inr (nd_rows (heap m) a), m).

(** [a[j]] for [0 <= j] *)
Definition nd_get (a : ndarray) (j : nat) : M frame :=
  if decide (j < rows a) then
    t <- load (base a) ;; ret (default [] (t !! (off a + j)))
  else raise IndexError.

(** [a[j] = v] for [0 <= j] *)
Definition nd_set (a : ndarray) (j : nat) (v : frame) : M unit :=
  if decide (j < rows a) then
    t <- load (base a) ;;
    v' <- lift (broadcast_row ValueError
                  (length (default [] (t !! (off a + j)))) v) ;;
    store (base a) (<[off a + j := v']> t)
  else raise IndexError.

(** [np.vstack(arrays)] *)
Definition np_vstack (arrays : list ndarray) : M matrix :=
  match arrays with
  | [] => raise ValueError
  | _ =>
      λ m, let out := concat (nd_rows (heap m) <$> arrays) in
           if forallb (λ r, length r =? length (default [] (head out))) out
           then (inr out, m) else (inl ValueError, m)
  end.

(** ** Encoding of a word window (lines 56-65) *)

Fixpoint fill_word_indices (w_i : nat) (word_seq : list word)
    (lang_model : Vocab) (word_indices : list Z) : list Z * Vocab :=
  match word_seq with
  | [] => (word_indices, lang_model)
  | wd :: rest =>
      let '(ix, lang_model') := get_word_index lang_model (w_text wd) in
      fill_word_indices (S w_i) rest lang_model' (<[w_i + 1 := ix]> word_indices)
  end.

Definition encode_words (lang_model : Vocab) (word_seq : list word)
    : list Z * Vocab :=
  let word_indices := replicate (length word_seq + 2) 0%Z in
  let word_indices := <[0 := SOS_token lang_model]> word_indices in
  let word_indices :=
    <[length word_indices - 1 := EOS_token lang_model]> word_indices in
  fill_word_indices 0 word_seq lang_model word_indices.

(** ** Window schedule (lines 37-46) *)

Record schedule := Schedule {
  unit_time : Q;
  stride_time : Q;
  num_subdivision : Z
}.

Definition make_schedule (args : Args) (clip_length : Q) : result schedule :=
  rbind (py_truediv (inject_Z (n_poses args))
           (inject_Z (motion_resampling_framerate args))) (λ unit_time,
  rbind (py_truediv (inject_Z (n_poses args - n_pre_poses args))
           (inject_Z (motion_resampling_framerate args))) (λ stride_time,
  rbind (if Qlt_le_dec clip_length unit_time then inr 1%Z
         else rbind (py_truediv (clip_length - unit_time) stride_time)
                (λ q, inr (Qceiling q + 1)%Z)) (λ num_subdivision,
  inr (Schedule unit_time stride_time num_subdivision)))).

(** the hard ceiling applied at line 46 *)
Definition subdivision_cap : Z := 59.

(** ** Seed of the first window (lines 28-34) *)

Definition initial_pre_seq (args : Args) (pose_decoder : Decoder)
    (seed_seq : option matrix) : result matrix :=
  rbind (torch_zeros (n_pre_poses args) (pose_dim pose_decoder)) (λ pre_seq,
  match seed_seq with
  | Some s =>
      torch_setitem (length pre_seq) (pose_dim pose_decoder)
        (py_slice s (Some 0%Z) (Some (n_pre_poses args)))
  | None =>
      let mean_pose := data_mean args in
      torch_setitem (length pre_seq) (pose_dim pose_decoder)
        (replicate (Z.to_nat (n_pre_poses args)) mean_pose)
  end).

(** ** The window loop (lines 50-88) *)

Record locals := Locals {
  pre_seq : matrix;
  out_poses : option loc;
  out_list : list ndarray;
  lang_model : Vocab
}.

(** lines 82-86 *)
Fixpoint blend_loop (js : list nat) (last_poses out_seq : ndarray) : M unit :=
  match js with
  | [] => ret tt
  | j :: js' =>
      let n := Z.of_nat (rows last_poses) in
      prev <- nd_get last_poses j ;;
      next <- nd_get out_seq j ;;
      v <- lift (np_broadcast2 Qplus
                   (np_divide (np_scale prev (n - Z.of_nat j)) (n + 1))
                   (np_divide (np_scale next (Z.of_nat j + 1)) (n + 1))) ;;
      nd_set out_seq j v ;;;
      blend_loop js' last_poses out_seq
  end.

Section Inference.

(** [device] is a CUDA device exactly when CUDA is available. *)
Variable cuda : bool.

(** The word-window query [DataPreprocessor.get_words_in_time_range] is
    defined outside the source file; it is taken as a parameter. *)
Variable get_words_in_time_range : list word → Q → Q → list word.

Section Window.

Variables (args : Args) (pose_decoder : Decoder) (words : list word).
Variable (sched : schedule).

(** [out_poses[0, :, :].data.cpu().numpy()]: on a CPU tensor [.cpu()]
    is the tensor itself and the array shares its buffer; a CUDA tensor
    is copied to host memory. *)
Definition to_numpy (p : loc) : M ndarray :=
  t <- load p ;;
  if cuda then q <- alloc t ;; ret (NdArray q 0 (length t))
  else ret (NdArray p 0 (length t)).

(** lines 77-88 *)
Definition smooth_transition (out_list : list ndarray) (out_seq : ndarray)
    : M (list ndarray) :=
  match last out_list with
  | Some prev_seq =>
      let last_poses := nd_slice prev_seq (Some (- n_pre_poses args)%Z) None in
      let out_list :=
        <[length out_list - 1 :=
            nd_slice prev_seq None (Some (- n_pre_poses args)%Z)]> out_list in
      blend_loop (seq 0 (rows last_poses)) last_poses out_seq ;;;
      ret (out_list ++ [out_seq])
  | None => ret (out_list ++ [out_seq])
  end.

(** one iteration of the loop of line 50 *)
Definition window (i : nat) (st : locals) : M locals :=
  let start_time := (inject_Z (Z.of_nat i) * stride_time sched)%Q in
  let end_time := (start_time + unit_time sched)%Q in
  (* prepare text input *)
  let word_seq := get_words_in_time_range words start_time end_time in
  let '(word_indices, lang_model) := encode_words (lang_model st) word_seq in
  let in_text := word_indices in
  (* prepare pre seq *)
  pre_seq <-
    (if decide (0 < i) then
       match out_poses st with
       | Some p =>
           t <- load p ;;
           lift (torch_setitem (length (pre_seq st)) (pose_dim pose_decoder)
                   (py_slice t (Some (- n_pre_poses args)%Z) None))
       | None => raise AttributeError
       end
     else ret (pre_seq st)) ;;
  (* inference *)
  let words_lengths := Z.of_nat (length in_text) in
  log_call (Call in_text words_lengths pre_seq) ;;;
  raw <- lift (forward pose_decoder in_text words_lengths pre_seq) ;;
  p <- alloc raw ;;
  out_seq <- to_numpy p ;;
  (* smoothing motion transition *)
  out_list <- smooth_transition (out_list st) out_seq ;;
  ret (Locals pre_seq (Some p) out_list lang_model).

Fixpoint windows (indices : list nat) (st : locals) : M locals :=
  match indices with
  | [] => ret st
  | i :: rest => st' <- window i st ;; windows rest st'
  end.

End Window.

(** lines 25-46: everything that precedes the loop *)
Definition prepare (args : Args) (pose_decoder : Decoder)
    (lang_model : Vocab) (words : list word) (seed_seq : option matrix)
    : result (schedule * locals) :=
  rbind (match last words with
         | Some w => inr (w_end w)
         | None => inl IndexError
         end) (λ clip_length,
  rbind (initial_pre_seq args pose_decoder seed_seq) (λ pre_seq,
  rbind (make_schedule args clip_length) (λ sched,
  inr (sched, Locals pre_seq None [] lang_model)))).

Definition generate_gestures (args : Args) (pose_decoder : Decoder)
    (lang_model : Vocab) (words : list word) (seed_seq : option matrix)
    (verbose : bool) : M matrix :=
  prep <- lift (prepare args pose_decoder lang_model words seed_seq) ;;
  let '(sched, st) := prep in
  let num_subdivision := Z.min (num_subdivision sched) subdivision_cap in
  st <- windows args pose_decoder words sched (py_range num_subdivision) st ;;
  (* the average inference time divides by the iteration count *)
  (if verbose then
     if (num_subdivision =? 0)%Z then raise ZeroDivisionError else ret tt
   else ret tt) ;;;
  (* aggregate results *)
  np_vstack (out_list st).

(** The state reached after the first [k] windows, whatever the schedule
    says about their number. *)
Definition after_windows (args : Args) (pose_decoder : Decoder)
    (lang_model : Vocab) (words : list word) (seed_seq : option matrix)
    (k : nat) : M locals :=
  prep <- lift (prepare args pose_decoder lang_model words seed_seq) ;;
  let '(sched, st) := prep in
  windows args pose_decoder words sched (seq 0 k) st.

(** ** Un-normalisation (lines 153-157) *)

Definition unnormalize (args : Args) (out_poses : matrix) : result matrix :=
  let mean := data_mean args in
  let std := data_std args in
  let std := np_clip_min (1 # 100) <$> std in
  let fix rows_of (l : matrix) : result matrix :=
    match l with
    | [] => inr []
    | r :: l' =>
        rbind (np_broadcast2 Qmult r std) (λ scaled,
        rbind (np_broadcast2 Qplus scaled mean) (λ r',
        rbind (rows_of l') (λ rs, inr (r' :: rs))))
    end in
  rows_of out_poses.

(** ** The pipeline of [main] from the inference on (lines 150-164) *)

Section Main.

(** smoothing and conversion to mocap channels; external *)
Variable make_mocap_data : matrix → result matrix.

Definition make_bvh (mocap_data : matrix) (save_path filename_prefix : string)
    : M unit :=
  write_file (save_path +:+ "/" +:+ filename_prefix +:+ "_generated.bvh")
    mocap_data.

Definition main_inference (args : Args) (generator : Decoder)
    (lang_model : Vocab) (word_list : list word) (stem : string) : M unit :=
  out_poses <- generate_gestures args generator lang_model word_list None true ;;
  out_poses <- lift (unnormalize args out_poses) ;;
  mocap_data <- lift (make_mocap_data out_poses) ;;
  make_bvh mocap_data "../output/infer_sample" stem.

End Main.

End Inference.

(** * Reference definitions used in the statements *)

(** The index the specification assigns to a word: its entry in the
    vocabulary when there is one, the UNKNOWN sentinel otherwise. *)
Definition word_index (lm : Vocab) (wd : word) : Z :=
  match word2index lm !! w_text wd with
  | Some ix => ix
  | None => UNK_token lm
  end.

(** The cross-fade of the specification at overlap index [j] of [n], one
    channel and one frame at a time. *)
Definition cross_fade_channel (n j : nat) (prev next : Q) : Q :=
  (prev * inject_Z (Z.of_nat n - Z.of_nat j) / inject_Z (Z.of_nat n + 1)
   + next * inject_Z (Z.of_nat j + 1) / inject_Z (Z.of_nat n + 1))%Q.

Definition cross_fade (n j : nat) (prev next : frame) : frame :=
  zip_with (cross_fade_channel n j) prev next.

(** [blend_from n j prevs nexts]: the frames of [nexts] facing [prevs] are
    cross-faded, from overlap index [j] on; the others are kept. *)
Fixpoint blend_from (n j : nat) (prevs nexts : matrix) : matrix :=
  match prevs, nexts with
  | p :: prevs', x :: nexts' => cross_fade n j p x :: blend_from n (S j) prevs' nexts'
  | _, _ => nexts
  end.

(** The last [k] elements of a list. *)
Definition lastn {A} (k : nat) (l : list A) : list A := drop (length l - k) l.

(** A matrix of [r] rows and [c] columns. *)
Definition shape (r c : nat) (t : matrix) : Prop :=
  length t = r ∧ Forall (λ f, length f = c) t.

(** A store with another heap. *)
Definition set_heap (m : mem) (h : list matrix) : mem :=
  Mem h (calls m) (written m).

(** A computation that only touches the heap: it neither invokes the
    predictor nor writes a file. *)
Definition heap_only {A} (c : M A) : Prop :=
  ∀ m, calls (c m).2 = calls m ∧ written (c m).2 = written m.

(** The seed handed to the predictor by window [i] (lines 67-70), read from
    heap [h]. *)
Definition window_seed (args : Args) (pose_decoder : Decoder) (i : nat)
    (st : locals) (h : list matrix) : result matrix :=
  if decide (0 < i) then
    match out_poses st with
    | Some p =>
        torch_setitem (length (pre_seq st)) (pose_dim pose_decoder)
          (py_slice (default [] (h !! p)) (Some (- n_pre_poses args)%Z) None)
    | None => inl AttributeError
    end
  else inr (pre_seq st).

(** The predictor invocation of window [i], given its seed. *)
Definition window_call
    (get_words_in_time_range : list word → Q → Q → list word)
    (words : list word) (sched : schedule) (i : nat) (st : locals)
    (pre : matrix) : call :=
  let start_time := (inject_Z (Z.of_nat i) * stride_time sched)%Q in
  let end_time := (start_time + unit_time sched)%Q in
  let word_seq := get_words_in_time_range words start_time end_time in
  let in_text :=
    SOS_token (lang_model st) :: (word_index (lang_model st) <$> word_seq)
    ++ [EOS_token (lang_model st)] in
  Call in_text (Z.of_nat (length in_text)) pre.

(** What remains of window [i] once the predictor has returned [raw]. *)
Definition window_rest (cuda : bool) (args : Args) (st : locals)
    (pre : matrix) (raw : matrix) : M locals :=
  p <- alloc raw ;;
  out_seq <- to_numpy cuda p ;;
  out_list <- smooth_transition args (out_list st) out_seq ;;
  ret (Locals pre (Some p) out_list (lang_model st)).

(** An array left behind by the loop: the output of a window, of [T] rows,
    without its last [n] rows. *)
Definition trimmed (h : list matrix) (n T D : nat) (a : ndarray) : Prop :=
  off a = 0 ∧ rows a = T - n ∧ ∃ B, h !! base a = Some B ∧ shape T D B.

(** The loop state after [k] windows of a run in which every predictor
    output has [T] rows of [pose_dim] channels and the overlap is [n]. *)
Definition wb_state (cuda : bool) (dec : Decoder) (lm : Vocab) (n T : nat)
    (k : nat) (st : locals) (m : mem) : Prop :=
  shape n (pose_dim dec) (pre_seq st) ∧ lang_model st = lm ∧
  match k with
  | 0 => out_list st = [] ∧ out_poses st = None
  | S k' =>
      ∃ olds q p Bq raw cs c,
        out_list st = olds ++ [NdArray q 0 T] ∧ length olds = k' ∧
        Forall (trimmed (heap m) n T (pose_dim dec)) olds ∧
        heap m !! q = Some Bq ∧ shape T (pose_dim dec) Bq ∧
        drop n Bq = drop n raw ∧
        out_poses st = Some p ∧
        heap m !! p = Some (if cuda then raw else Bq) ∧
        calls m = cs ++ [c] ∧ invoke dec c = inr raw ∧
        shape T (pose_dim dec) raw
  end.

(** The predictor returned on call [c]. *)
Definition succeeded (dec : Decoder) (c : call) : Prop :=
  ∃ raw, invoke dec c = inr raw.

(** What the log [cs] of a run says about its result [r]: every seed has the
    shape of the seed tensor, and either every invocation returned, or the
    last one raised and its exception is the result of the run. *)
Definition run_log {A} (dec : Decoder) (n D : nat) (cs : list call)
    (r : result A) : Prop :=
  Forall (λ c, shape n D (seed c)) cs ∧
  (Forall (succeeded dec) cs ∨
   ∃ cs' c e, cs = cs' ++ [c] ∧ Forall (succeeded dec) cs' ∧
              invoke dec c = inl e ∧ r = inl e).

(** Each seed after the first is the tail of the previous raw output. *)
Definition seeds_chained (dec : Decoder) (n : nat) (cs : list call) : Prop :=
  ∀ i c c', cs !! i = Some c → cs !! S i = Some c' →
            ∃ raw, invoke dec c = inr raw ∧ seed c' = lastn n raw.

(** * Concrete configurations, used to exercise the statements *)

(** Modelled from the spec: the word-window query of section 4.1, which is
    defined outside the source file, with the inclusion policy "start_time <
    t1 and end_time > t0".  It only serves to instantiate the parameter
    [get_words_in_time_range] in closed examples. *)
Definition words_in_range (ws : list word) (t0 t1 : Q) : list word :=
  List.filter (λ w, (if Qlt_le_dec (w_start w) t1 then true else false)
                    && (if Qlt_le_dec t0 (w_end w) then true else false)) ws.

Definition demo_vocab : Vocab :=
  {| SOS_token := 1; EOS_token := 2; UNK_token := 3;
     word2index := {[ "hello" := 7%Z ]} |}.

(** A predictor that returns the same frames whatever it is given. *)
Definition const_decoder (D : nat) (raw : matrix) : Decoder :=
  {| pose_dim := D; forward := λ _ _ _, inr raw |}.

(** A predictor that raises on every call. *)
Definition failing_decoder (D : nat) (e : exn) : Decoder :=
  {| pose_dim := D; forward := λ _ _ _, inl e |}.

(** A predictor that raises unless the first channel of its seed is zero. *)
Definition picky_decoder (D : nat) (raw : matrix) (e : exn) : Decoder :=
  {| pose_dim := D;
     forward := λ _ _ s,
       match s with
       | (q :: _) :: _ => if Qeq_bool q 0 then inr raw else inl e
       | _ => inl e
       end |}.

Definition mk_args (poses pre framerate : Z) (mean std : frame) : Args :=
  {| n_poses := poses; n_pre_poses := pre;
     motion_resampling_framerate := framerate;
     data_mean := mean; data_std := std |}.

(** Lines 90-96: what follows the loop. *)
Definition aggregate (verbose : bool) (num_subdivision : Z) (st : locals)
    : M matrix :=
  (if verbose then
     if (num_subdivision =? 0)%Z then raise ZeroDivisionError else ret tt
   else ret tt) ;;;
  np_vstack (out_list st).

(** Channel [ch] of frame [j] of a matrix. *)
Definition channel (t : matrix) (j ch : nat) : option Q :=
  r ← t !! j; r !! ch.

(** A predictor whose single frame has one channel, the sum of the word
    indices it is given. *)
Definition text_decoder : Decoder :=
  {| pose_dim := 1;
     forward := λ it _ _, inr [[inject_Z (foldr Z.add 0%Z it)]] |}.

(** * The running sequence *)

(** What [np.vstack] would return on the arrays stored so far. *)
Definition running (h : list matrix) (arrays : list ndarray) : matrix :=
  concat (nd_rows h <$> arrays).

(** Stitching one more window onto a running sequence, as a function of
    values only: the last [n] frames are taken off and the new window is
    appended, its first [n] frames cross-faded against the frames taken off. *)
Definition stitch_step (n : nat) (sequence raw : matrix) : matrix :=
  take (length sequence - n) sequence
  ++ blend_from n 0 (lastn n sequence) raw.

Definition stitch (n : nat) (raws : list matrix) : matrix :=
  match raws with
  | [] => []
  | raw :: rest => foldl (stitch_step n) raw rest
  end.

(** A computation that leaves the number of buffers as it is and writes to
    buffer [q] at most. *)
Definition writes_only (q : loc) {A} (c : M A) : Prop :=
  ∀ m, length (heap (c m).2) = length (heap m) ∧
       ∀ p, p ≠ q → heap (c m).2 !! p = heap m !! p.

(** A run as a function of values only, for comparison with the code: the
    seed of the next window, the calls made and the raw outputs received.
    Each window is seeded with the last [n] frames of the previous raw
    output. *)
Record ref_state := RefState {
  ref_seed : matrix;
  ref_calls : list call;
  ref_raws : list matrix
}.

Definition ref_step (gw : list word → Q → Q → list word) (words : list word)
    (sched : schedule) (lm : Vocab) (dec : Decoder) (n : nat)
    (s : ref_state) (i : nat) : ref_state :=
  let c := window_call gw words sched i (Locals [] None [] lm) (ref_seed s) in
  match invoke dec c with
  | inr raw => RefState (lastn n raw) (ref_calls s ++ [c]) (ref_raws s ++ [raw])
  | inl _ => s
  end.

Definition ref_run (gw : list word → Q → Q → list word) (words : list word)
    (sched : schedule) (lm : Vocab) (dec : Decoder) (n : nat)
    (pre : matrix) (k : nat) : ref_state :=
  foldl (ref_step gw words sched lm dec n) (RefState pre [] []) (seq 0 k).

(** * The transcript loop and the whole of [main] *)

(** One entry of the transcript, with its three fields as the loader gives
    them: two times written with a trailing unit marker, and a word. *)
Record subtitle := Subtitle {
  sub_start_time : string;
  sub_end_time : string;
  sub_word : string
}.

(** [s[:-1]] on a string *)
Definition str_init (s : string) : string :=
  String.substring 0 (String.length s - 1) s.

Section Transcript.

(** Python's [float] on a string, and the word normalisation defined outside
    the source file, are parameters. *)
Variable py_float : string → result Q.
Variable normalize_string : string → string.

(** lines 140-148, [word_list] being the list built so far *)
Fixpoint read_transcript (transcript : list subtitle) (word_list : list word)
    : result (list word) :=
  match transcript with
  | [] => inr word_list
  | entry :: rest =>
      rbind (py_float (str_init (sub_start_time entry))) (λ word_s,
      rbind (py_float (str_init (sub_end_time entry))) (λ word_e,
      let word := normalize_string (sub_word entry) in
      if decide (0 < String.length word)
      then read_transcript rest (word_list ++ [Word word word_s word_e])
      else read_transcript rest word_list))
  end.

(** lines 137-164 *)
Definition main_transcript (cuda : bool)
    (get_words_in_time_range : list word → Q → Q → list word)
    (make_mocap_data : matrix → result matrix)
    (args : Args) (generator : Decoder) (lang_model : Vocab)
    (transcript : list subtitle) (stem : string) : M unit :=
  word_list <- lift (read_transcript transcript []) ;;
  main_inference cuda get_words_in_time_range make_mocap_data args generator
    lang_model word_list stem.

(** The word an entry contributes, given its two parsed times. *)
Definition kept_word (entry : subtitle) (times : Q * Q) : option word :=
  let word := normalize_string (sub_word entry) in
  if decide (0 < String.length word)
  then Some (Word word times.1 times.2) else None.

End Transcript.


(** * Properties *)

(** ** Exceptions and computations *)

Lemma bind_inr {A B} (c : M A) (k : A → M B) m a m' :
  c m = (inr a, m') → bind c k m = k a m'.
Proof. unfold bind. by intros ->. Qed.

Lemma bind_inv_inr {A B} (c : M A) (k : A → M B) m b m'' :
  bind c k m = (inr b, m'') →
  ∃ a m', c m = (inr a, m') ∧ k a m' = (inr b, m'').
Proof.
  unfold bind. destruct (c m) as [[e|a] m']; [discriminate|]. eauto.
Qed.

Lemma lift_inr {A} (r : result A) a m : r = inr a → lift r m = (inr a, m).
Proof. by intros ->. Qed.

Lemma bind_assoc {A B C} (c : M A) (f : A → M B) (g : B → M C) m :
  bind (bind c f) g m = bind c (λ a, bind (f a) g) m.
Proof. unfold bind. by destruct (c m) as [[e|a] m']. Qed.

Lemma bind_ext {A B} (c : M A) (k1 k2 : A → M B) m :
  (∀ a m', k1 a m' = k2 a m') → bind c k1 m = bind c k2 m.
Proof. intros H. unfold bind. by destruct (c m) as [[e|a] m']. Qed.

(** ** Python slices *)

Lemma py_clamp_neg len k :
  0 < k → py_clamp len (- Z.of_nat k) = len - k.
Proof.
  intros Hk. unfold py_clamp.
  destruct (Z.ltb_spec (- Z.of_nat k) 0); lia.
Qed.

Lemma py_clamp_nonneg len k :
  py_clamp len (Z.of_nat k) = k `min` len.
Proof.
  unfold py_clamp. destruct (Z.ltb_spec (Z.of_nat k) 0); lia.
Qed.

(** [l[-k:]] is the last [k] elements, except that [l[-0:]] is all of [l]. *)
Lemma py_slice_tail {A} (l : list A) k :
  py_slice l (Some (- Z.of_nat k)%Z) None =
  if decide (k = 0) then l else drop (length l - k) l.
Proof.
  unfold py_slice; simpl. case_decide as Hk.
  - subst k. change (- Z.of_nat 0)%Z with (Z.of_nat 0).
    rewrite py_clamp_nonneg. simpl. by rewrite Nat.sub_0_r, firstn_all.
  - rewrite py_clamp_neg by lia.
    apply take_ge. rewrite length_drop. lia.
Qed.

(** [l[:-k]] drops the last [k] elements, except that [l[:-0]] is empty. *)
Lemma py_slice_init {A} (l : list A) k :
  py_slice l None (Some (- Z.of_nat k)%Z) =
  if decide (k = 0) then [] else take (length l - k) l.
Proof.
  unfold py_slice; simpl. case_decide as Hk.
  - subst k. change (- Z.of_nat 0)%Z with (Z.of_nat 0).
    by rewrite py_clamp_nonneg.
  - rewrite py_clamp_neg by lia. by rewrite Nat.sub_0_r.
Qed.

(** [l[0:k]] *)
Lemma py_slice_head {A} (l : list A) k :
  py_slice l (Some 0%Z) (Some (Z.of_nat k)) = take k l.
Proof.
  unfold py_slice; simpl. change 0%Z with (Z.of_nat 0).
  rewrite !py_clamp_nonneg. simpl. rewrite Nat.sub_0_r.
  destruct (Nat.min_spec k (length l)) as [[? ->]|[? ->]]; [by rewrite drop_0|].
  rewrite drop_0. rewrite (take_ge l (length l)) by lia. by rewrite (take_ge l k) by lia.
Qed.

Lemma nd_slice_tail a k :
  nd_slice a (Some (- Z.of_nat k)%Z) None =
  if decide (k = 0) then NdArray (base a) (off a + 0) (rows a)
  else NdArray (base a) (off a + (rows a - k)) (rows a - (rows a - k)).
Proof.
  unfold nd_slice; simpl. case_decide as Hk.
  - subst k. change (- Z.of_nat 0)%Z with (Z.of_nat 0).
    rewrite py_clamp_nonneg. simpl. by rewrite Nat.sub_0_r.
  - by rewrite py_clamp_neg by lia.
Qed.

Lemma nd_slice_init a k :
  nd_slice a None (Some (- Z.of_nat k)%Z) =
  if decide (k = 0) then NdArray (base a) (off a + 0) 0
  else NdArray (base a) (off a + 0) (rows a - k - 0).
Proof.
  unfold nd_slice; simpl. case_decide as Hk.
  - subst k. change (- Z.of_nat 0)%Z with (Z.of_nat 0).
    by rewrite py_clamp_nonneg.
  - by rewrite py_clamp_neg by lia.
Qed.

(** ** Broadcasting *)

Lemma np_broadcast2_same f (a b : frame) :
  length a = length b → np_broadcast2 f a b = inr (zip_with f a b).
Proof. intros H. unfold np_broadcast2. by rewrite decide_True. Qed.

Lemma broadcast_row_same err w (v : frame) :
  length v = w → broadcast_row err w v = inr v.
Proof. intros H. unfold broadcast_row. by rewrite decide_True. Qed.

Lemma broadcast_row_length err w (v v' : frame) :
  broadcast_row err w v = inr v' → length v' = w.
Proof.
  unfold broadcast_row. case_decide; [by intros [= <-]|].
  destruct v as [|x [|??]]; try discriminate.
  intros [= <-]. by rewrite length_replicate.
Qed.

Lemma broadcast_rows_same err w (src : matrix) :
  Forall (λ r, length r = w) src → broadcast_rows err w src = inr src.
Proof.
  induction 1 as [|r src Hr _ IH]; [done|]. simpl.
  rewrite (broadcast_row_same _ _ _ Hr). simpl. by rewrite IH.
Qed.

Lemma broadcast_rows_shape err w (src t : matrix) :
  broadcast_rows err w src = inr t →
  length t = length src ∧ Forall (λ r, length r = w) t.
Proof.
  revert t. induction src as [|r src IH]; intros t; simpl.
  - by intros [= <-].
  - destruct (broadcast_row err w r) as [|r'] eqn:Hr; [discriminate|]. simpl.
    destruct (broadcast_rows err w src) as [|rs]; [discriminate|]. simpl.
    intros [= <-]. destruct (IH rs eq_refl) as [Hl Hw]. split.
    + simpl. by rewrite Hl.
    + constructor; [by eapply broadcast_row_length|done].
Qed.

Lemma torch_setitem_same rows cols (src : matrix) :
  length src = rows → Forall (λ r, length r = cols) src →
  torch_setitem rows cols src = inr src.
Proof.
  intros Hl Hw. unfold torch_setitem.
  rewrite (broadcast_rows_same _ _ _ Hw). simpl. by rewrite decide_True.
Qed.

(** Whatever is assigned, the tensor keeps its shape. *)
Lemma torch_setitem_shape rows cols (src t : matrix) :
  torch_setitem rows cols src = inr t →
  length t = rows ∧ Forall (λ r, length r = cols) t.
Proof.
  unfold torch_setitem.
  destruct (broadcast_rows RuntimeError cols src) as [|src'] eqn:Hb;
    [discriminate|]. simpl.
  apply broadcast_rows_shape in Hb as [_ Hw].
  case_decide as Hl; [by intros [= <-]|].
  destruct src' as [|r [|??]]; try discriminate.
  intros [= <-]. split; [by rewrite length_replicate|].
  apply Forall_replicate. by inversion Hw.
Qed.

(** ** Word encoding *)

Lemma fill_word_indices_spec (word_seq : list word) : ∀ w_i lm (pre post : list Z),
  length pre = S w_i → length post = length word_seq →
  ∀ tl, fill_word_indices w_i word_seq lm (pre ++ post ++ tl) =
        (pre ++ (word_index lm <$> word_seq) ++ tl, lm).
Proof.
  induction word_seq as [|wd rest IH]; intros w_i lm pre post Hpre Hpost tl.
  - by destruct post.
  - destruct post as [|z post]; [done|]. cbn [fill_word_indices].
    assert (get_word_index lm (w_text wd) = (word_index lm wd, lm)) as ->.
    { unfold get_word_index, word_index. by destruct (word2index lm !! _). }
    rewrite insert_app_r_alt by lia.
    replace (w_i + 1 - length pre) with 0 by lia. simpl.
    specialize (IH (S w_i) lm (pre ++ [word_index lm wd]) post).
    rewrite length_app in IH. simpl in IH.
    specialize (IH ltac:(lia) ltac:(by simplify_eq/=) tl).
    rewrite <- !(assoc_L (++)) in IH. simpl in IH. by rewrite IH.
Qed.

Lemma encode_words_eq lm (word_seq : list word) :
  encode_words lm word_seq =
  (SOS_token lm :: (word_index lm <$> word_seq) ++ [EOS_token lm], lm).
Proof.
  unfold encode_words.
  rewrite length_insert, length_replicate.
  replace (length word_seq + 2) with (S (length word_seq + 1)) by lia.
  simpl. rewrite Nat.sub_0_r.
  rewrite replicate_add. simpl.
  pose proof (length_replicate (length word_seq) 0%Z) as Hlen.
  change (SOS_token lm :: ?l) with ([SOS_token lm] ++ l).
  rewrite (insert_app_r_alt [SOS_token lm]) by (simpl; lia).
  rewrite insert_app_r_alt by (simpl; lia).
  replace (length word_seq + 1 - length [SOS_token lm] -
           length (replicate (length word_seq) 0%Z)) with 0 by (simpl; lia).
  simpl.
  apply (fill_word_indices_spec word_seq 0 lm [SOS_token lm]
           (replicate (length word_seq) 0%Z) eq_refl).
  by rewrite length_replicate.
Qed.

(** ** Un-normalisation *)

Lemma unnormalize_rows (args : Args) (poses : matrix) :
  Forall (λ r, length r = length (data_std args)) poses →
  length (data_mean args) = length (data_std args) →
  unnormalize args poses =
  inr ((λ r, zip_with Qplus
               (zip_with Qmult r (np_clip_min (1 # 100) <$> data_std args))
               (data_mean args)) <$> poses).
Proof.
  intros Hrows Hmean. unfold unnormalize.
  induction Hrows as [|r poses Hr _ IH]; [done|].
  rewrite np_broadcast2_same by (by rewrite length_fmap).
  simpl. rewrite np_broadcast2_same; last first.
  { rewrite length_zip_with, length_fmap. lia. }
  simpl. by rewrite IH.
Qed.

(** ** The overlap blend *)

Lemma set_heap_id m : set_heap m (heap m) = m.
Proof. by destruct m. Qed.

Lemma blend_row_cross_fade n j (prev next : frame) :
  length prev = length next →
  np_broadcast2 Qplus
    (np_divide (np_scale prev (Z.of_nat n - Z.of_nat j)) (Z.of_nat n + 1))
    (np_divide (np_scale next (Z.of_nat j + 1)) (Z.of_nat n + 1))
  = inr (cross_fade n j prev next).
Proof.
  intros Hlen. unfold np_divide, np_scale.
  rewrite np_broadcast2_same by (by rewrite !length_fmap).
  f_equal. unfold cross_fade.
  rewrite zip_with_fmap_l, zip_with_fmap_r, zip_with_fmap_l, zip_with_fmap_r.
  done.
Qed.

Lemma length_cross_fade n j (prev next : frame) :
  length prev = length next → length (cross_fade n j prev next) = length next.
Proof. intros H. unfold cross_fade. rewrite length_zip_with. lia. Qed.

Lemma blend_from_nil n j (nexts : matrix) : blend_from n j [] nexts = nexts.
Proof. done. Qed.

Lemma length_blend_from n (prevs : matrix) : ∀ j (nexts : matrix),
  length (blend_from n j prevs nexts) = length nexts.
Proof.
  induction prevs as [|p prevs IH]; intros j [|x nexts]; simpl; auto.
Qed.

Lemma lookup_blend_from n (prevs : matrix) : ∀ j (nexts : matrix) i p x,
  prevs !! i = Some p → nexts !! i = Some x →
  blend_from n j prevs nexts !! i = Some (cross_fade n (j + i) p x).
Proof.
  induction prevs as [|p0 prevs IH]; intros j [|x0 nexts] [|i] p x Hp Hx;
    simplify_eq/=.
  - by rewrite Nat.add_0_r.
  - rewrite (IH (S j) nexts i p x Hp Hx). do 2 f_equal. lia.
Qed.

Lemma drop_blend_from n (prevs : matrix) : ∀ j (nexts : matrix),
  drop (length prevs) (blend_from n j prevs nexts) = drop (length prevs) nexts.
Proof.
  induction prevs as [|p prevs IH]; intros j [|x nexts]; simpl; auto.
Qed.

Lemma Forall_blend_from n D (prevs : matrix) : ∀ j (nexts : matrix),
  Forall (λ r, length r = D) prevs → Forall (λ r, length r = D) nexts →
  Forall (λ r, length r = D) (blend_from n j prevs nexts).
Proof.
  induction prevs as [|p prevs IH]; intros j [|x nexts] Hp Hx; simpl; auto.
  inversion Hp; inversion Hx; subst. constructor; [|by apply IH].
  rewrite length_cross_fade; congruence.
Qed.

Lemma load_eq p m (t : matrix) :
  heap m !! p = Some t → load p m = (inr t, m).
Proof. unfold load. by intros ->. Qed.

Lemma nd_get_eq a j m (t : matrix) (r : frame) :
  j < rows a → heap m !! base a = Some t → t !! (off a + j) = Some r →
  nd_get a j m = (inr r, m).
Proof.
  intros Hj Ht Hr. unfold nd_get. rewrite decide_True by done.
  rewrite (bind_inr _ _ _ _ _ (load_eq _ _ _ Ht)). by rewrite Hr.
Qed.

Lemma nd_set_eq a j m (t : matrix) (r v : frame) :
  j < rows a → heap m !! base a = Some t → t !! (off a + j) = Some r →
  length v = length r →
  nd_set a j v m =
  (inr tt, set_heap m (<[base a := <[off a + j := v]> t]> (heap m))).
Proof.
  intros Hj Ht Hr Hv. unfold nd_set. rewrite decide_True by done.
  rewrite (bind_inr _ _ _ _ _ (load_eq _ _ _ Ht)). rewrite Hr. simpl.
  rewrite broadcast_row_same by done. done.
Qed.

(** The loop of lines 82-86, started at overlap index [j0] with [k] indices
    to go, rewrites rows [j0 .. j0 + k - 1] of the buffer behind [out_seq]. *)
Lemma blend_loop_run D (last_poses out_seq : ndarray) (B : matrix) :
  ∀ k j0 m (R : matrix),
  base last_poses ≠ base out_seq →
  heap m !! base last_poses = Some B →
  heap m !! base out_seq = Some R →
  off out_seq = 0 →
  j0 + k ≤ rows last_poses →
  j0 + k ≤ rows out_seq →
  rows out_seq ≤ length R →
  off last_poses + rows last_poses ≤ length B →
  Forall (λ r, length r = D) B → Forall (λ r, length r = D) R →
  blend_loop (seq j0 k) last_poses out_seq m =
  (inr tt,
   set_heap m (<[base out_seq :=
      take j0 R ++
      blend_from (rows last_poses) j0
        (take k (drop (off last_poses + j0) B)) (drop j0 R)]> (heap m))).
Proof.
  induction k as [|k IH]; intros j0 m R Hne HB HR Hoff Hlp Hos HlenR HlenB HwB HwR.
  - simpl. rewrite take_drop.
    rewrite list_insert_id by done. by rewrite set_heap_id.
  - destruct (lookup_lt_is_Some_2 B (off last_poses + j0)) as [prev Hprev]; [lia|].
    destruct (lookup_lt_is_Some_2 R j0) as [next Hnext]; [lia|].
    pose proof (Forall_lookup_1 _ _ _ _ HwB Hprev) as Hlp'.
    pose proof (Forall_lookup_1 _ _ _ _ HwR Hnext) as Hln'.
    simpl in Hlp', Hln'.
    assert (R !! (off out_seq + j0) = Some next) as Hnext' by (by rewrite Hoff).
    assert (j0 < rows last_poses) as Hj1 by lia.
    assert (j0 < rows out_seq) as Hj2 by lia.
    cbn [seq blend_loop].
    rewrite (bind_inr _ _ _ _ _ (nd_get_eq _ _ _ _ _ Hj1 HB Hprev)).
    rewrite (bind_inr _ _ _ _ _ (nd_get_eq _ _ _ _ _ Hj2 HR Hnext')).
    unfold bind at 1, lift at 1.
    rewrite blend_row_cross_fade by congruence.
    set (v := cross_fade (rows last_poses) j0 prev next).
    assert (length v = length next) as Hv.
    { unfold v. rewrite length_cross_fade; congruence. }
    rewrite (bind_inr _ _ _ _ _ (nd_set_eq _ _ _ _ _ _ Hj2 HR Hnext' Hv)).
    rewrite Hoff. simpl.
    assert (base out_seq < length (heap m)) as Hq by (by eapply lookup_lt_Some).
    rewrite (IH (S j0) _ (<[j0 := v]> R)); try done; try lia.
    + unfold set_heap. simpl. rewrite list_insert_insert_eq.
      do 3 f_equal.
      rewrite (take_S_r _ _ v) by (apply list_lookup_insert_eq; lia).
      rewrite take_insert_ge by lia.
      rewrite drop_insert_lt by lia.
      rewrite <- (assoc_L (++)). f_equal. simpl.
      rewrite (drop_S B prev (off last_poses + j0)) by done.
      rewrite (drop_S R next j0) by done. simpl.
      by replace (off last_poses + S j0) with (S (off last_poses + j0)) by lia.
    + simpl. by rewrite list_lookup_insert_ne.
    + simpl. by rewrite list_lookup_insert_eq.
    + by rewrite length_insert.
    + apply Forall_insert; [done|]. congruence.
Qed.

(** ** Computations that only touch the heap *)

Lemma heap_only_ret {A} (a : A) : heap_only (ret a).
Proof. by intros m. Qed.

Lemma heap_only_raise {A} e : heap_only (@raise A e).
Proof. by intros m. Qed.

Lemma heap_only_lift {A} (r : result A) : heap_only (lift r).
Proof. by intros m. Qed.

Lemma heap_only_alloc t : heap_only (alloc t).
Proof. by intros m. Qed.

Lemma heap_only_load p : heap_only (load p).
Proof. by intros m. Qed.

Lemma heap_only_store p t : heap_only (store p t).
Proof. by intros m. Qed.

Lemma heap_only_bind {A B} (c : M A) (k : A → M B) :
  heap_only c → (∀ a, heap_only (k a)) → heap_only (bind c k).
Proof.
  intros Hc Hk m. unfold bind. specialize (Hc m).
  destruct (c m) as [[e|a] m']; simpl in *; [done|].
  destruct (Hk a m') as [-> ->]. done.
Qed.

Create HintDb heap_only.
#[local] Hint Resolve heap_only_ret heap_only_raise heap_only_lift
  heap_only_alloc heap_only_load heap_only_store : heap_only.
#[local] Hint Extern 2 (heap_only (bind _ _)) =>
  apply heap_only_bind; [|intros ?] : heap_only.

Lemma heap_only_nd_get a j : heap_only (nd_get a j).
Proof. unfold nd_get. case_decide; auto with heap_only. Qed.

Lemma heap_only_nd_set a j v : heap_only (nd_set a j v).
Proof. unfold nd_set. case_decide; auto 6 with heap_only. Qed.

#[local] Hint Resolve heap_only_nd_get heap_only_nd_set : heap_only.

Lemma heap_only_blend_loop js last_poses out_seq :
  heap_only (blend_loop js last_poses out_seq).
Proof. induction js; simpl; auto 8 with heap_only. Qed.

Lemma heap_only_to_numpy cuda p : heap_only (to_numpy cuda p).
Proof. unfold to_numpy. destruct cuda; auto 6 with heap_only. Qed.

#[local] Hint Resolve heap_only_blend_loop heap_only_to_numpy : heap_only.

Lemma heap_only_smooth_transition args out_list out_seq :
  heap_only (smooth_transition args out_list out_seq).
Proof.
  unfold smooth_transition. destruct (last out_list); auto 6 with heap_only.
Qed.

Lemma heap_only_np_vstack arrays : heap_only (np_vstack arrays).
Proof.
  unfold np_vstack. destruct arrays; [apply heap_only_raise|].
  intros m. by destruct (forallb _ _).
Qed.

#[local] Hint Resolve heap_only_smooth_transition heap_only_np_vstack : heap_only.

Lemma heap_only_window_rest cuda args st pre raw :
  heap_only (window_rest cuda args st pre raw).
Proof. unfold window_rest. auto 8 with heap_only. Qed.

(** ** One window, in general *)

Section WindowGeneral.

Variables (cuda : bool) (gw : list word → Q → Q → list word).
Variables (args : Args) (dec : Decoder) (words : list word) (sched : schedule).

(** A window computes its seed, logs the call, invokes the predictor and,
    if the predictor returned, blends and appends. *)
Lemma window_unfold i st m :
  window cuda gw args dec words sched i st m =
  match window_seed args dec i st (heap m) with
  | inl e => (inl e, m)
  | inr pre =>
      let c := window_call gw words sched i st pre in
      let m1 := Mem (heap m) (calls m ++ [c]) (written m) in
      match invoke dec c with
      | inl e => (inl e, m1)
      | inr raw => window_rest cuda args st pre raw m1
      end
  end.
Proof.
  unfold window, window_seed, window_call. rewrite encode_words_eq.
  case_decide.
  - destruct (out_poses st) as [p|]; [|done].
    unfold bind at 1. unfold bind at 1. unfold load at 1, lift at 1.
    destruct (torch_setitem _ _ _) as [e|pre]; [done|].
    unfold bind at 1, log_call at 1. unfold bind at 1, lift at 1.
    unfold invoke. simpl. by destruct (forward dec _ _ _).
  - unfold bind at 1, ret at 1.
    unfold bind at 1, log_call at 1. unfold bind at 1, lift at 1.
    unfold invoke. simpl. by destruct (forward dec _ _ _).
Qed.

End WindowGeneral.

(** ** The store primitives on known buffers *)

Lemma alloc_eq (t : matrix) m :
  alloc t m = (inr (length (heap m)), set_heap m (heap m ++ [t])).
Proof. done. Qed.

Lemma to_numpy_eq cuda p m (t : matrix) :
  heap m !! p = Some t →
  to_numpy cuda p m =
  (inr (NdArray (if cuda then length (heap m) else p) 0 (length t)),
   if cuda then set_heap m (heap m ++ [t]) else m).
Proof.
  intros Ht. unfold to_numpy.
  rewrite (bind_inr _ _ _ _ _ (load_eq _ _ _ Ht)). by destruct cuda.
Qed.

Lemma lastn_length {A} k (l : list A) : k ≤ length l → length (lastn k l) = k.
Proof. intros H. unfold lastn. rewrite length_drop. lia. Qed.

(** Lines 78-88 when the previous array has [T] rows and the overlap is
    [1 <= n <= T]: the previous array loses its last [n] rows and the first
    [n] rows of the new one are cross-faded in place. *)
Lemma smooth_transition_snoc args n T D olds q out_seq m (Bq R : matrix) :
  n_pre_poses args = Z.of_nat n → 1 ≤ n → n ≤ T →
  heap m !! q = Some Bq → shape T D Bq →
  base out_seq ≠ q → off out_seq = 0 → rows out_seq = T →
  heap m !! base out_seq = Some R → shape T D R →
  smooth_transition args (olds ++ [NdArray q 0 T]) out_seq m =
  (inr (olds ++ [NdArray q 0 (T - n); out_seq]),
   set_heap m (<[base out_seq := blend_from n 0 (lastn n Bq) R]> (heap m))).
Proof.
  intros Hn Hn1 HnT HBq [HlBq HwBq] Hne Hoff Hrows HR [HlR HwR].
  unfold smooth_transition. rewrite last_snoc, Hn.
  rewrite nd_slice_tail, nd_slice_init.
  rewrite !decide_False by lia. simpl.
  replace (T - (T - n)) with n by lia.
  rewrite Nat.sub_0_r.
  erewrite bind_inr; last first.
  { eapply (blend_loop_run D _ _ Bq n 0 m R); simpl; try done; lia. }
  simpl. unfold ret. f_equal.
  - f_equal. rewrite length_app. simpl.
    replace (length olds + 1 - 1) with (length olds + 0) by lia.
    rewrite insert_app_r. simpl. by rewrite <- (assoc_L (++)).
  - do 2 f_equal. rewrite Nat.add_0_r.
    unfold lastn. rewrite HlBq. f_equal.
    apply take_ge. rewrite length_drop. lia.
Qed.

Lemma smooth_transition_first args out_seq m :
  smooth_transition args [] out_seq m = (inr [out_seq], m).
Proof. done. Qed.

(** ** One window of a well-behaved run *)

Lemma trimmed_mono h h' n T D a :
  (∀ p (B : matrix), h !! p = Some B → h' !! p = Some B) →
  trimmed h n T D a → trimmed h' n T D a.
Proof. intros Hh (?&?&B&?&?). repeat split; eauto. Qed.

Section WellBehaved.

Variables (cuda : bool) (gw : list word → Q → Q → list word).
Variables (args : Args) (dec : Decoder) (words : list word) (sched : schedule).
Variables (lm : Vocab) (n T : nat).

Hypothesis Hn : n_pre_poses args = Z.of_nat n.
Hypothesis Hn1 : 1 ≤ n.
Hypothesis HnT : n ≤ T.
Hypothesis Hdec : ∀ it wl s,
  shape n (pose_dim dec) s →
  ∃ raw, forward dec it wl s = inr raw ∧ shape T (pose_dim dec) raw.

Let D := pose_dim dec.

Lemma window_seed_step k st m :
  wb_state cuda dec lm n T k st m →
  ∃ pre, window_seed args dec k st (heap m) = inr pre ∧ shape n D pre ∧
    match k with
    | 0 => pre = pre_seq st
    | S _ => ∃ p Bp, out_poses st = Some p ∧ heap m !! p = Some Bp ∧
                     pre = lastn n Bp
    end.
Proof.
  intros (Hpre & _ & Hk). unfold window_seed. destruct k as [|k].
  - rewrite decide_False by lia. eauto.
  - destruct Hk as (olds&q&p&Bq&raw&cs&c&_&_&_&_&HsBq&_&Hp&Hhp&_&_&Hsraw).
    rewrite decide_True by lia. rewrite Hp, Hhp. simpl.
    set (Bp := if cuda then raw else Bq) in *.
    assert (shape T D Bp) as [HlBp HwBp] by (unfold Bp; by destruct cuda).
    rewrite Hn, py_slice_tail, decide_False by lia.
    destruct Hpre as [Hlpre _]. rewrite Hlpre.
    exists (lastn n Bp). unfold lastn. split; [|split].
    + apply torch_setitem_same.
      * rewrite length_drop. lia.
      * by apply Forall_drop.
    + split; [rewrite length_drop; lia|by apply Forall_drop].
    + eauto.
Qed.

Lemma window_step k st m :
  wb_state cuda dec lm n T k st m →
  ∃ st' m' pre raw,
    window cuda gw args dec words sched k st m = (inr st', m') ∧
    wb_state cuda dec lm n T (S k) st' m' ∧
    window_seed args dec k st (heap m) = inr pre ∧
    calls m' = calls m ++ [window_call gw words sched k st pre] ∧
    written m' = written m ∧
    invoke dec (window_call gw words sched k st pre) = inr raw ∧
    ∃ a', last (out_list st') = Some a' ∧
          nd_rows (heap m') a' =
          match last (out_list st) with
          | None => raw
          | Some a => blend_from n 0 (lastn n (nd_rows (heap m) a)) raw
          end.
Proof.
  intros Hst.
  destruct (window_seed_step k st m Hst) as (pre & Hseed & Hspre & Hpre).
  destruct Hst as (_ & Hlm & Hk).
  set (c := window_call gw words sched k st pre).
  destruct (Hdec (in_text c) (words_lengths c) pre Hspre)
    as (raw & Hraw & Hsraw).
  assert (invoke dec c = inr raw) as Hinv by done.
  rewrite window_unfold, Hseed. cbn zeta. fold c. rewrite Hinv.
  set (m1 := Mem (heap m) (calls m ++ [c]) (written m)).
  unfold window_rest. rewrite (bind_inr _ _ _ _ _ (alloc_eq raw m1)).
  set (m2 := set_heap m1 (heap m1 ++ [raw])).
  assert (heap m2 !! length (heap m1) = Some raw) as Hp2.
  { unfold m2; simpl. by rewrite list_lookup_middle. }
  rewrite (bind_inr _ _ _ _ _ (to_numpy_eq cuda _ _ _ Hp2)).
  destruct Hsraw as [Hlraw Hwraw]. rewrite Hlraw.
  (* the array handed to the blend and the store it lives in *)
  set (q' := if cuda then length (heap m2) else length (heap m1)).
  set (m3 := if cuda then set_heap m2 (heap m2 ++ [raw]) else m2).
  fold q' m3.
  assert (heap m3 !! q' = Some raw) as Hq3.
  { unfold q', m3, m2; destruct cuda; simpl.
    - rewrite length_app. simpl.
      replace (length (heap m) + 1) with (length (heap m ++ [raw]))
        by (rewrite length_app; simpl; lia).
      by rewrite list_lookup_middle.
    - by rewrite list_lookup_middle. }
  assert (heap m3 !! length (heap m) = Some raw) as Hp3.
  { unfold m3, m2; destruct cuda; simpl.
    - rewrite <- (assoc_L (++)). simpl. by rewrite list_lookup_middle.
    - by rewrite list_lookup_middle. }
  assert (∀ p (B : matrix), heap m !! p = Some B → heap m3 !! p = Some B)
    as Hmono.
  { intros p B HB. unfold m3, m2; destruct cuda; simpl.
    - rewrite <- (assoc_L (++)). by apply lookup_app_l_Some.
    - by apply lookup_app_l_Some. }
  assert (length (heap m) ≤ q') as Hq'.
  { unfold q', m2; destruct cuda; simpl; [rewrite length_app|]; lia. }
  assert (calls m3 = calls m ++ [c] ∧ written m3 = written m) as [Hc3 Hw3].
  { unfold m3, m2; by destruct cuda. }
  destruct k as [|k].
  - (* first window: nothing to blend *)
    destruct Hk as [Hol Hop]. rewrite Hol.
    rewrite (bind_inr _ _ _ _ _ (smooth_transition_first _ _ _)).
    unfold ret. eexists _, m3, pre, raw.
    split; [done|]. split; [|split; [done|split; [done|split; [done|split; [done|]]]]].
    + split; [done|]. split; [done|].
      exists [], q', (length (heap m)), raw, raw, (calls m), c. simpl.
      repeat split; try done.
      by destruct cuda.
    + exists (NdArray q' 0 T). split; [done|].
      unfold nd_rows. simpl. rewrite Hq3. simpl. rewrite drop_0.
      by rewrite take_ge by lia.
  - (* later windows *)
    destruct Hk as (olds&q&p&Bq&raw0&cs&c0&Hol&Holds&Htr&Hq&HsBq&_&_&_&_&_&_).
    rewrite Hol.
    assert (q < length (heap m)) as Hqlt by (by eapply lookup_lt_Some).
    erewrite bind_inr; last first.
    { eapply (smooth_transition_snoc args n T D olds q _ m3 Bq raw);
        simpl; try done; try lia. by apply Hmono. }
    unfold ret. simpl.
    set (Bq' := blend_from n 0 (lastn n Bq) raw).
    assert (shape T D Bq') as HsBq'.
    { destruct HsBq as [HlBq HwBq]. split.
      - unfold Bq'. by rewrite length_blend_from.
      - apply Forall_blend_from; [|done]. by apply Forall_drop. }
    assert (q' < length (heap m3)) as Hq'lt by (by eapply lookup_lt_Some).
    eexists _, _, pre, raw.
    split; [done|]. split; [|split; [done|split; [done|split; [done|split; [done|]]]]].
    + split; [done|]. split; [done|].
      exists (olds ++ [NdArray q 0 (T - n)]), q', (length (heap m)), Bq',
        raw, (calls m), c. simpl.
      split; [by rewrite <- (assoc_L (++))|].
      split; [rewrite length_app; simpl; lia|].
      split.
      { apply Forall_app. split.
        - eapply Forall_impl; [exact Htr|]. intros a Ha.
          eapply trimmed_mono; [|exact Ha].
          intros p0 B HB. rewrite list_lookup_insert_ne.
          + by apply Hmono.
          + apply lookup_lt_Some in HB. lia.
        - constructor; [|done]. split; [done|]. split; [done|].
          exists Bq. split; [|done]. simpl.
          rewrite list_lookup_insert_ne by lia. by apply Hmono. }
      split; [by apply list_lookup_insert_eq|].
      split; [done|].
      split.
      { unfold Bq'.
        pose proof (drop_blend_from n (lastn n Bq) 0 raw) as Hd.
        rewrite lastn_length in Hd by (destruct HsBq; lia). done. }
      split; [done|].
      split.
      { destruct cuda.
        - rewrite list_lookup_insert_ne; [done|].
          unfold q', m2. simpl. rewrite length_app. simpl. lia.
        - unfold q'. simpl. by rewrite list_lookup_insert_eq. }
      done.
    + exists (NdArray q' 0 T). rewrite last_snoc.
      split.
      { simpl. by rewrite last_app_cons. }
      unfold nd_rows at 1. simpl. rewrite list_lookup_insert_eq by done.
      simpl. rewrite drop_0.
      rewrite take_ge by (destruct HsBq'; lia).
      unfold Bq', nd_rows. simpl. rewrite Hq. simpl. rewrite drop_0.
      by rewrite take_ge by (destruct HsBq; lia).
Qed.

End WellBehaved.

(** ** Runs in general: what is logged and how failures surface *)

Lemma windows_app cuda gw args dec words sched l1 : ∀ l2 st m,
  windows cuda gw args dec words sched (l1 ++ l2) st m =
  bind (windows cuda gw args dec words sched l1 st)
       (windows cuda gw args dec words sched l2) m.
Proof.
  induction l1 as [|i l1 IH]; intros l2 st m; [done|].
  simpl. rewrite bind_assoc. apply bind_ext. intros st' m'. apply IH.
Qed.

Lemma initial_pre_seq_shape args dec seed_seq pre :
  initial_pre_seq args dec seed_seq = inr pre →
  shape (Z.to_nat (n_pre_poses args)) (pose_dim dec) pre.
Proof.
  unfold initial_pre_seq, torch_zeros.
  destruct (n_pre_poses args <? 0)%Z; [discriminate|]. simpl.
  rewrite length_replicate.
  destruct seed_seq; apply torch_setitem_shape.
Qed.

Lemma prepare_inv args dec lm words seed_seq sched st :
  prepare args dec lm words seed_seq = inr (sched, st) →
  ∃ w pre, last words = Some w ∧
           initial_pre_seq args dec seed_seq = inr pre ∧
           make_schedule args (w_end w) = inr sched ∧
           st = Locals pre None [] lm.
Proof.
  unfold prepare. destruct (last words) as [w|]; [|discriminate]. simpl.
  destruct (initial_pre_seq _ _ _) as [|pre]; [discriminate|]. simpl.
  destruct (make_schedule _ _) as [|s] eqn:Hs; [discriminate|]. simpl.
  intros [= <- <-]. by exists w, pre.
Qed.

Section RunGeneral.

Variables (cuda : bool) (gw : list word → Q → Q → list word).
Variables (args : Args) (dec : Decoder) (words : list word) (sched : schedule).
Variable n : nat.

Let D := pose_dim dec.

Lemma window_seed_shape i st h pre :
  shape n D (pre_seq st) →
  window_seed args dec i st h = inr pre → shape n D pre.
Proof.
  intros Hst. unfold window_seed. case_decide; [|by intros [= <-]].
  destruct (out_poses st); [|discriminate].
  destruct Hst as [<- _]. apply torch_setitem_shape.
Qed.

Lemma window_rest_inv st pre raw m st' m' :
  window_rest cuda args st pre raw m = (inr st', m') →
  pre_seq st' = pre ∧ lang_model st' = lang_model st.
Proof.
  unfold window_rest. intros H.
  apply bind_inv_inr in H as (p & m1 & _ & H).
  apply bind_inv_inr in H as (out_seq & m2 & _ & H).
  apply bind_inv_inr in H as (out_list & m3 & _ & H).
  unfold ret in H. by simplify_eq/=.
Qed.

Lemma window_outcome i st m r m' :
  shape n D (pre_seq st) →
  window cuda gw args dec words sched i st m = (r, m') →
  written m' = written m ∧
  ((∃ e, r = inl e ∧ calls m' = calls m ∧
         window_seed args dec i st (heap m) = inl e) ∨
   ∃ pre, window_seed args dec i st (heap m) = inr pre ∧ shape n D pre ∧
          calls m' = calls m ++ [window_call gw words sched i st pre] ∧
          match invoke dec (window_call gw words sched i st pre) with
          | inl e => r = inl e
          | inr raw => ∀ st', r = inr st' →
                              pre_seq st' = pre ∧ lang_model st' = lang_model st
          end).
Proof.
  intros Hst. rewrite window_unfold.
  destruct (window_seed args dec i st (heap m)) as [e|pre] eqn:Hseed.
  { intros [= <- <-]. split; [done|]. left. by exists e. }
  cbn zeta.
  destruct (invoke dec (window_call gw words sched i st pre)) as [e|raw] eqn:Hinv.
  { intros [= <- <-]. split; [done|]. right. exists pre.
    rewrite Hinv. eauto using window_seed_shape. }
  intros Hrest.
  destruct (heap_only_window_rest cuda args st pre raw
              (Mem (heap m) (calls m ++ [window_call gw words sched i st pre])
                 (written m))) as [Hc Hw].
  rewrite Hrest in Hc, Hw. simpl in Hc, Hw.
  split; [done|]. right. exists pre. rewrite Hinv.
  split; [done|]. split; [by eapply window_seed_shape|]. split; [done|].
  intros st' ->. by eapply window_rest_inv.
Qed.

Lemma run_log_nil {A} (r : result A) : run_log dec n D [] r.
Proof. split; [done|]. by left. Qed.

Lemma run_log_cons {A} c cs (r : result A) :
  shape n D (seed c) → succeeded dec c →
  run_log dec n D cs r → run_log dec n D (c :: cs) r.
Proof.
  intros Hc Hok [Hs Hr]. split; [by constructor|].
  destruct Hr as [Hall|(cs'&c'&e&->&Hall&Hinv&->)].
  - left. by constructor.
  - right. exists (c :: cs'), c', e. repeat split; try done. by constructor.
Qed.

Lemma windows_outcome indices : ∀ st m r m',
  shape n D (pre_seq st) →
  windows cuda gw args dec words sched indices st m = (r, m') →
  written m' = written m ∧
  ∃ cs, calls m' = calls m ++ cs ∧ run_log dec n D cs r ∧
        ∀ st', r = inr st' → Forall (succeeded dec) cs.
Proof.
  induction indices as [|i rest IH]; intros st m r m' Hst.
  { intros [= <- <-]. split; [done|]. exists [].
    rewrite app_nil_r. split; [done|]. split; [apply run_log_nil|done]. }
  simpl. unfold bind.
  destruct (window _ _ _ _ _ _ i st m) as [r1 m1] eqn:Hwin.
  destruct (window_outcome _ _ _ _ _ Hst Hwin) as [Hw [(e&->&Hc&_)|(pre&_&Hpre&Hc&Hinv)]].
  { intros [= <- <-]. split; [done|]. exists [].
    rewrite app_nil_r. split; [done|]. split; [apply run_log_nil|done]. }
  set (c := window_call gw words sched i st pre) in *.
  change (seed c) with pre in *.
  destruct (invoke dec c) as [e|raw] eqn:Hc'.
  { subst r1. intros [= <- <-]. split; [done|]. exists [c].
    split; [done|]. split; [|done]. split; [by constructor|].
    right. by exists [], c, e. }
  assert (succeeded dec c) as Hok by (by exists raw).
  destruct r1 as [e|st1].
  { intros [= <- <-]. split; [done|]. exists [c]. split; [done|].
    split; [|done]. apply run_log_cons; [done|done|apply run_log_nil]. }
  destruct (Hinv st1 eq_refl) as [Hp _].
  intros Hrest. apply IH in Hrest as (Hw' & cs & Hcs & Hlog & Hall).
  2:{ by rewrite Hp. }
  split; [congruence|]. exists (c :: cs).
  split; [by rewrite Hcs, Hc, <- (assoc_L (++))|].
  split; [by apply run_log_cons|].
  intros st' ->. constructor; eauto.
Qed.

(** The first window never fails before its call: the first seed is the
    tensor built before the loop. *)
Lemma windows_first_call k st m r m' :
  shape n D (pre_seq st) →
  windows cuda gw args dec words sched (seq 0 (S k)) st m = (r, m') →
  ∃ cs, calls m' = calls m ++ window_call gw words sched 0 st (pre_seq st) :: cs.
Proof.
  intros Hst. simpl. unfold bind.
  destruct (window _ _ _ _ _ _ 0 st m) as [r1 m1] eqn:Hwin.
  destruct (window_outcome _ _ _ _ _ Hst Hwin) as [_ [(e&_&_&Hseed)|(pre&Hseed&_&Hc&Hinv)]];
    unfold window_seed in Hseed; rewrite decide_False in Hseed by lia;
    [discriminate|].
  injection Hseed as <-.
  destruct r1 as [e|st1].
  { intros [= <- <-]. exists []. done. }
  destruct (invoke dec _) as [e|raw]; [discriminate|].
  destruct (Hinv st1 eq_refl) as [Hp _].
  intros Hrest. apply windows_outcome in Hrest as (_ & cs & Hcs & _).
  2:{ by rewrite Hp. }
  exists cs. by rewrite Hcs, Hc, <- (assoc_L (++)).
Qed.

End RunGeneral.

(** ** Well-behaved runs *)

Lemma seeds_chained_snoc dec n cs c' :
  seeds_chained dec n cs →
  (∀ c, last cs = Some c →
        ∃ raw, invoke dec c = inr raw ∧ seed c' = lastn n raw) →
  seeds_chained dec n (cs ++ [c']).
Proof.
  intros Hcs Hlast i c1 c2 H1 H2.
  destruct (decide (S i < length cs)) as [Hlt|Hge].
  - rewrite lookup_app_l in H1, H2 by lia. eauto.
  - apply lookup_lt_Some in H2 as Hi. rewrite length_app in Hi. simpl in Hi.
    assert (S i = length cs) as Hi' by lia.
    rewrite lookup_app_l in H1 by lia.
    rewrite lookup_app_r in H2 by lia.
    rewrite Hi', Nat.sub_diag in H2. simplify_eq/=.
    apply Hlast. rewrite last_lookup. rewrite <- Hi'. done.
Qed.

Lemma lastn_drop_eq {A} n (l1 l2 : list A) :
  length l1 = length l2 → 2 * n ≤ length l1 →
  drop n l1 = drop n l2 → lastn n l1 = lastn n l2.
Proof.
  intros Hlen Hn Hdrop. unfold lastn. rewrite <- Hlen.
  replace (length l1 - n) with (n + (length l1 - n - n)) by lia.
  by rewrite <- !drop_drop, Hdrop.
Qed.

Lemma length_trimmed_rows h n T D olds :
  Forall (trimmed h n T D) olds →
  length (concat (nd_rows h <$> olds)) = length olds * (T - n) ∧
  Forall (λ r, length r = D) (concat (nd_rows h <$> olds)).
Proof.
  induction 1 as [|a olds (Hoff&Hrows&B&HB&HlB&HwB) _ [IHl IHw]]; [done|].
  rewrite fmap_cons. cbn [concat length].
  assert (nd_rows h a = take (T - n) B) as ->.
  { unfold nd_rows. by rewrite HB, Hoff, Hrows, drop_0. }
  split.
  - rewrite length_app, length_take, IHl. lia.
  - apply Forall_app. split; [by apply Forall_take|done].
Qed.

Lemma np_vstack_eq D arrays m :
  arrays ≠ [] →
  Forall (λ r, length r = D) (concat (nd_rows (heap m) <$> arrays)) →
  np_vstack arrays m = (inr (concat (nd_rows (heap m) <$> arrays)), m).
Proof.
  intros Hne Hw. unfold np_vstack. destruct arrays as [|a arrays]; [done|].
  set (out := concat _) in *.
  assert (forallb (λ r, length r =? length (default [] (head out))) out = true)
    as ->; [|done].
  apply forallb_forall. intros r Hr.
  apply Nat.eqb_eq. apply list_elem_of_In in Hr.
  destruct out as [|r0 out']; [by apply elem_of_nil in Hr|]. simpl.
  rewrite Forall_forall in Hw. rewrite (Hw r Hr). symmetry. apply Hw. left.
Qed.

Section WellBehavedRun.

Variables (cuda : bool) (gw : list word → Q → Q → list word).
Variables (args : Args) (dec : Decoder) (words : list word) (sched : schedule).
Variables (lm : Vocab) (n T : nat).

Hypothesis Hn : n_pre_poses args = Z.of_nat n.
Hypothesis Hn1 : 1 ≤ n.
Hypothesis HnT : n ≤ T.
Hypothesis Hdec : ∀ it wl s,
  shape n (pose_dim dec) s →
  ∃ raw, forward dec it wl s = inr raw ∧ shape T (pose_dim dec) raw.

Let D := pose_dim dec.

Lemma wb_run k : ∀ st0 m0,
  wb_state cuda dec lm n T 0 st0 m0 →
  ∃ st m cs,
    windows cuda gw args dec words sched (seq 0 k) st0 m0 = (inr st, m) ∧
    wb_state cuda dec lm n T k st m ∧
    calls m = calls m0 ++ cs ∧ length cs = k ∧ written m = written m0 ∧
    (cuda = true ∨ 2 * n ≤ T → seeds_chained dec n cs).
Proof.
  induction k as [|k IH]; intros st0 m0 H0.
  { exists st0, m0, []. rewrite app_nil_r.
    do 5 (split; [done|]).
    intros _ i c c' Hc. by rewrite lookup_nil in Hc. }
  destruct (IH st0 m0 H0) as (st & m & cs & Hrun & Hst & Hcs & Hlen & Hw & Hchain).
  destruct (window_step cuda gw args dec words sched lm n T Hn Hn1 HnT Hdec
              k st m Hst)
    as (st' & m' & pre & raw & Hwin & Hst' & Hseed & Hc' & Hw' & Hinv & _).
  exists st', m', (cs ++ [window_call gw words sched k st pre]).
  split.
  { rewrite seq_S, windows_app. simpl.
    rewrite (bind_inr _ _ _ _ _ Hrun). simpl.
    by rewrite (bind_inr _ _ _ _ _ Hwin). }
  split; [done|].
  split; [by rewrite Hc', Hcs, <- (assoc_L (++))|].
  split; [rewrite length_app; simpl; lia|].
  split; [congruence|].
  intros Halias. apply seeds_chained_snoc; [by apply Hchain|].
  intros c Hlast. simpl.
  destruct (window_seed_step cuda args dec lm n T Hn Hn1 HnT k st m Hst)
    as (pre' & Hseed' & _ & Hpre').
  assert (pre' = pre) as -> by congruence.
  destruct k as [|k]; [by destruct cs|].
  destruct Hpre' as (p & Bp & Hp & HBp & ->).
  destruct Hst as (_ & _ & olds&q&p0&Bq&raw0&cs0&c0&_&_&_&_&HsBq&Hdrop&Hp0&HBp0&Hcs0&Hinv0&Hsraw0).
  assert (c0 = c) as ->.
  { apply last_Some in Hlast as [cs1 ->].
    rewrite Hcs0, (assoc_L (++)) in Hcs.
    by apply app_inj_tail in Hcs as [_ ?]. }
  exists raw0. split; [done|].
  assert (p0 = p) as -> by congruence.
  rewrite HBp0 in HBp. injection HBp as <-.
  destruct cuda; [done|].
  destruct Halias as [?|Halias]; [done|].
  apply lastn_drop_eq; [|destruct HsBq; lia|done].
  destruct HsBq, Hsraw0. congruence.
Qed.

(** The whole of [generate_gestures], when the seed and the schedule
    could be built and at least one window is scheduled. *)
Lemma generate_gestures_wb words' seed_seq verbose st0 m0 :
  prepare args dec lm words' seed_seq = inr (sched, st0) →
  words' = words →
  (1 ≤ num_subdivision sched)%Z →
  let N := Z.to_nat (Z.min (num_subdivision sched) subdivision_cap) in
  ∃ out m cs st,
    generate_gestures cuda gw args dec lm words seed_seq verbose m0
      = (inr out, m) ∧
    windows cuda gw args dec words sched (seq 0 N) st0 m0 = (inr st, m) ∧
    wb_state cuda dec lm n T N st m ∧
    calls m = calls m0 ++ cs ∧ length cs = N ∧ written m = written m0 ∧
    (cuda = true ∨ 2 * n ≤ T → seeds_chained dec n cs) ∧
    length out = T + (N - 1) * (T - n) ∧ Forall (λ r, length r = D) out.
Proof.
  intros Hprep -> Hnum N.
  assert (1 ≤ N) as HN by (unfold N, subdivision_cap; lia).
  destruct (prepare_inv _ _ _ _ _ _ _ Hprep) as (w & pre & _ & Hpre & _ & ->).
  apply initial_pre_seq_shape in Hpre. rewrite Hn, Nat2Z.id in Hpre.
  destruct (wb_run N (Locals pre None [] lm) m0)
    as (st & m & cs & Hrun & Hst & Hcs & Hlen & Hw & Hchain); [done|].
  destruct N as [|N'] eqn:HN'; [lia|].
  destruct Hst as (Hs1 & Hs2 & olds&q&p&Bq&raw&cs0&c&Hol&Holds&Htr&Hq&HsBq&Hrest).
  destruct (length_trimmed_rows _ _ _ _ _ Htr) as [Hl1 Hw1].
  assert (nd_rows (heap m) (NdArray q 0 T) = Bq) as Hlastrows.
  { unfold nd_rows. simpl. rewrite Hq. simpl. rewrite drop_0.
    apply take_ge. destruct HsBq. lia. }
  set (out := concat (nd_rows (heap m) <$> out_list st)).
  assert (out = concat (nd_rows (heap m) <$> olds) ++ Bq) as Hout.
  { unfold out. rewrite Hol, fmap_app, concat_app. simpl.
    by rewrite Hlastrows, app_nil_r. }
  assert (Forall (λ r, length r = D) out) as Hwout.
  { rewrite Hout. apply Forall_app. split; [done|by destruct HsBq]. }
  exists out, m, cs, st.
  split.
  { unfold generate_gestures.
    rewrite (bind_inr _ _ _ _ _ (lift_inr _ _ m0 Hprep)).
    cbn zeta. unfold py_range. fold N. rewrite HN'.
    rewrite (bind_inr _ _ _ _ _ Hrun).
    assert ((Z.min (num_subdivision sched) subdivision_cap =? 0)%Z = false)
      as -> by (apply Z.eqb_neq; unfold subdivision_cap; lia).
    assert ((if verbose then ret () else ret ()) = ret ()) as ->
      by (by destruct verbose).
    unfold bind at 1, ret at 1.
    apply (np_vstack_eq D); [|done].
    rewrite Hol. by destruct olds. }
  split; [done|].
  split.
  { split; [done|]. split; [done|].
    exists olds, q, p, Bq, raw, cs0, c.
    destruct Hrest as (?&?&?&?&?&?). done. }
  split; [done|]. split; [done|]. split; [done|]. split; [done|].
  split; [|done].
  rewrite Hout, length_app, Hl1, Holds. destruct HsBq as [-> _].
  simpl. rewrite Nat.sub_0_r. lia.
Qed.

End WellBehavedRun.

(** * The claims *)

(** ** Word encoding *)

Lemma window_logs cuda gw args dec words sched i st m :
  let m' := (window cuda gw args dec words sched i st m).2 in
  calls m' = calls m ∨
  ∃ pre, calls m' = calls m ++ [window_call gw words sched i st pre].
Proof.
  rewrite window_unfold.
  destruct (window_seed args dec i st (heap m)) as [e|pre]; [by left|].
  right. exists pre. cbn zeta.
  destruct (invoke dec _) as [e|raw]; [done|].
  apply heap_only_window_rest.
Qed.

(** C8.  A window of [k] words is encoded as [SOS, idx(w1), ..., idx(wk),
    EOS], of length [k + 2], where [idx] is the vocabulary entry of a known
    word and the UNKNOWN sentinel otherwise; the vocabulary comes back
    unchanged; and this sequence, with its length, is what a window hands to
    the predictor. *)
Theorem encode_words_correct (lm : Vocab) (word_seq : list word) :
  encode_words lm word_seq =
    (SOS_token lm :: (word_index lm <$> word_seq) ++ [EOS_token lm], lm)
  ∧ length (encode_words lm word_seq).1 = length word_seq + 2
  ∧ (∀ wd ix, word2index lm !! w_text wd = Some ix → word_index lm wd = ix)
  ∧ (∀ wd, word2index lm !! w_text wd = None → word_index lm wd = UNK_token lm)
  ∧ (∀ cuda gw args dec words sched i st m,
       let word_seq :=
         gw words (inject_Z (Z.of_nat i) * stride_time sched)%Q
            (inject_Z (Z.of_nat i) * stride_time sched + unit_time sched)%Q in
       let m' := (window cuda gw args dec words sched i st m).2 in
       calls m' = calls m ∨
       ∃ pre, calls m' = calls m ++
                [Call (encode_words (lang_model st) word_seq).1
                      (Z.of_nat (length word_seq + 2)) pre]).
Proof.
  split; [apply encode_words_eq|].
  split.
  { rewrite encode_words_eq. simpl. rewrite length_app, length_fmap. simpl. lia. }
  split; [by intros wd ix; unfold word_index; intros ->|].
  split; [by intros wd; unfold word_index; intros ->|].
  intros cuda gw args dec words sched i st m ws m'.
  destruct (window_logs cuda gw args dec words sched i st m) as [H|[pre H]];
    [by left|].
  right. exists pre. fold m' in H. rewrite H. unfold window_call.
  rewrite encode_words_eq. cbn zeta. fold ws. simpl.
  do 3 f_equal. rewrite length_app, length_fmap. simpl. lia.
Qed.

(** ** Un-normalisation *)

(** C9.  On a pose sequence whose frames have as many channels as the
    statistics, un-normalisation returns, channel by channel,
    [pose * std' + mean], where [std'] is [std] raised to [0.01] where it is
    smaller and left alone elsewhere. *)
Theorem unnormalize_correct (args : Args) (poses : matrix) (D : nat) :
  Forall (λ r, length r = D) poses →
  length (data_std args) = D →
  length (data_mean args) = D →
  ∃ out,
    unnormalize args poses = inr out ∧
    length out = length poses ∧
    (∀ i c (row : frame) (x s mu : Q),
       poses !! i = Some row → row !! c = Some x →
       data_std args !! c = Some s → data_mean args !! c = Some mu →
       ∃ row' : frame, out !! i = Some row' ∧ length row' = D ∧
         row' !! c = Some (x * np_clip_min (1 # 100) s + mu)%Q) ∧
    (∀ s, (1 # 100 <= s)%Q → np_clip_min (1 # 100) s = s) ∧
    (∀ s, (s < 1 # 100)%Q → np_clip_min (1 # 100) s = (1 # 100)%Q).
Proof.
  intros Hrows Hstd Hmean.
  eexists. split.
  { apply unnormalize_rows; [by rewrite Hstd|congruence]. }
  split; [by rewrite length_fmap|].
  split.
  { intros i c row x s mu Hrow Hx Hs Hmu.
    eexists. split; [by rewrite list_lookup_fmap, Hrow|].
    split.
    - rewrite !length_zip_with, length_fmap.
      rewrite (Forall_lookup_1 _ _ _ _ Hrows Hrow). lia.
    - rewrite lookup_zip_with, lookup_zip_with, Hx. simpl.
      rewrite list_lookup_fmap, Hs. simpl. by rewrite Hmu. }
  split.
  - intros s Hs. unfold np_clip_min.
    destruct (Qlt_le_dec s (1 # 100)) as [Hlt|]; [|done].
    by apply Qlt_not_le in Hlt.
  - intros s Hs. unfold np_clip_min.
    destruct (Qlt_le_dec s (1 # 100)) as [|Hle]; [done|].
    by apply Qlt_not_le in Hs.
Qed.

Lemma unnormalize_correct_witness :
  ∃ out,
    unnormalize (mk_args 2 1 1 [1; 2]%Q [(1 # 1000); 3]%Q) [[10; 20]; [30; 40]]%Q
      = inr out ∧
    out = [[10 * (1 # 100) + 1; 20 * 3 + 2]; [30 * (1 # 100) + 1; 40 * 3 + 2]]%Q.
Proof.
  destruct (unnormalize_correct
              (mk_args 2 1 1 [1; 2]%Q [(1 # 1000); 3]%Q)
              [[10; 20]; [30; 40]]%Q 2)
    as (out & Hout & _).
  - repeat constructor.
  - reflexivity.
  - reflexivity.
  - exists out. split; [exact Hout|].
    vm_compute in Hout. injection Hout as <-. reflexivity.
Defined.

(** ** The window schedule *)










(** ** [generate_gestures] and [main] in general *)

Lemma heap_only_aggregate verbose num st : heap_only (aggregate verbose num st).
Proof.
  unfold aggregate. apply heap_only_bind; [|intros ?; apply heap_only_np_vstack].
  destruct verbose; [destruct (num =? 0)%Z|]; auto with heap_only.
Qed.

Lemma run_log_inl {A B} dec n D cs e :
  run_log (A:=A) dec n D cs (inl e) → run_log (A:=B) dec n D cs (inl e).
Proof.
  intros [Hs [Hall|(cs'&c&e'&->&Hall&Hinv&[= ->])]]; (split; [done|]).
  - by left.
  - right. by exists cs', c, e'.
Qed.

Lemma generate_gestures_unfold cuda gw args dec lm words seed_seq verbose m0 :
  generate_gestures cuda gw args dec lm words seed_seq verbose m0 =
  match prepare args dec lm words seed_seq with
  | inl e => (inl e, m0)
  | inr (sched, st0) =>
      let num := Z.min (num_subdivision sched) subdivision_cap in
      bind (windows cuda gw args dec words sched (seq 0 (Z.to_nat num)) st0)
           (aggregate verbose num) m0
  end.
Proof.
  unfold generate_gestures. unfold bind at 1, lift at 1.
  by destruct (prepare args dec lm words seed_seq) as [e|[sched st0]].
Qed.

Section GenerateGeneral.

Variables (cuda : bool) (gw : list word → Q → Q → list word).
Variables (args : Args) (dec : Decoder) (lm : Vocab) (words : list word).
Variables (seed_seq : option matrix) (verbose : bool).

Let n := Z.to_nat (n_pre_poses args).
Let D := pose_dim dec.

(** Whatever the inputs: the run writes no file, every logged seed has the
    shape of the seed tensor, and a predictor failure ends the run with the
    predictor's own exception. *)
Lemma generate_gestures_log m0 r m :
  generate_gestures cuda gw args dec lm words seed_seq verbose m0 = (r, m) →
  written m = written m0 ∧
  ∃ cs, calls m = calls m0 ++ cs ∧ run_log dec n D cs r.
Proof.
  rewrite generate_gestures_unfold.
  destruct (prepare args dec lm words seed_seq) as [e|[sched st0]] eqn:Hprep.
  { intros [= <- <-]. split; [done|]. exists []. rewrite app_nil_r.
    split; [done|apply run_log_nil]. }
  cbn zeta. unfold bind.
  destruct (windows _ _ _ _ _ _ _ st0 m0) as [r1 m1] eqn:Hwin.
  apply prepare_inv in Hprep as (w & pre & _ & Hpre & _ & ->).
  apply initial_pre_seq_shape in Hpre.
  apply windows_outcome with (n := n) in Hwin as (Hw & cs & Hcs & Hlog & Hall);
    [|done].
  destruct r1 as [e|st].
  { intros [= <- <-]. split; [done|]. exists cs. split; [done|].
    by eapply run_log_inl. }
  intros Hagg.
  destruct (heap_only_aggregate verbose
              (Z.min (num_subdivision sched) subdivision_cap) st m1) as [Hc' Hw'].
  rewrite Hagg in Hc', Hw'. simpl in Hc', Hw'.
  split; [congruence|]. exists cs. split; [congruence|].
  destruct Hlog as [Hshape _]. split; [done|]. left. by eapply Hall.
Qed.

(** As soon as one window is scheduled, the first logged call carries the
    seed built before the loop. *)
Lemma generate_gestures_first_call sched st0 m0 r m :
  prepare args dec lm words seed_seq = inr (sched, st0) →
  (1 ≤ Z.min (num_subdivision sched) subdivision_cap)%Z →
  generate_gestures cuda gw args dec lm words seed_seq verbose m0 = (r, m) →
  ∃ cs, calls m = calls m0 ++ window_call gw words sched 0 st0 (pre_seq st0) :: cs.
Proof.
  intros Hprep HN. rewrite generate_gestures_unfold, Hprep. cbn zeta.
  destruct (Z.to_nat (Z.min (num_subdivision sched) subdivision_cap))
    as [|k] eqn:Hk; [lia|].
  unfold bind.
  destruct (windows _ _ _ _ _ _ _ st0 m0) as [r1 m1] eqn:Hwin.
  apply prepare_inv in Hprep as (w & pre & _ & Hpre & _ & ->).
  apply initial_pre_seq_shape in Hpre.
  apply windows_first_call with (n := n) in Hwin as [cs Hcs]; [|done].
  destruct r1 as [e|st].
  { intros [= <- <-]. by exists cs. }
  intros Hagg.
  destruct (heap_only_aggregate verbose
              (Z.min (num_subdivision sched) subdivision_cap) st m1) as [Hc' _].
  rewrite Hagg in Hc'. simpl in Hc'. exists cs. congruence.
Qed.

Variable make_mocap_data : matrix → result matrix.

Lemma main_inference_unfold stem m0 :
  main_inference cuda gw make_mocap_data args dec lm words stem m0 =
  match generate_gestures cuda gw args dec lm words None true m0 with
  | (inl e, m) => (inl e, m)
  | (inr out, m) =>
      match rbind (unnormalize args out) make_mocap_data with
      | inl e => (inl e, m)
      | inr mocap => make_bvh mocap "../output/infer_sample" stem m
      end
  end.
Proof.
  unfold main_inference, bind.
  destruct (generate_gestures _ _ _ _ _ _ _ _ m0) as [[e|out] m]; [done|].
  unfold lift. destruct (unnormalize args out) as [e|out']; [done|]. simpl.
  by destruct (make_mocap_data out').
Qed.

End GenerateGeneral.

(** ** Predictor failures *)

Lemma run_log_failure {A} dec n D cs (r : result A) i c e :
  run_log dec n D cs r → cs !! i = Some c → invoke dec c = inl e →
  r = inl e ∧ length cs = S i.
Proof.
  intros [_ [Hall|(cs'&c'&e'&->&Hall&Hinv&->)]] Hi Hc.
  - destruct (Forall_lookup_1 _ _ _ _ Hall Hi) as [raw Hraw]. congruence.
  - apply lookup_app_Some in Hi as [Hi|[Hlen Hi]].
    + destruct (Forall_lookup_1 _ _ _ _ Hall Hi) as [raw Hraw]. congruence.
    + destruct (i - length cs') as [|?] eqn:Hd; simplify_eq/=.
      split; [congruence|]. rewrite length_app. simpl. lia.
Qed.

(** C7, as the code has it.  When an invocation of the predictor raises,
    that invocation is the last one of the run, [generate_gestures] returns
    the predictor's exception and no pose sequence, and [main] ends with the
    same exception without writing a file.  The exception is passed on as it
    is: nothing records the window index in it. *)
Theorem predictor_failure_aborts cuda gw mk (args : Args) (dec : Decoder) lm
    (words : list word) seed_seq verbose stem (i : nat) (c : call) (e : exn) :
  invoke dec c = inl e →
  (∀ r m,
     generate_gestures cuda gw args dec lm words seed_seq verbose empty_mem
       = (r, m) →
     calls m !! i = Some c →
     r = inl e ∧ length (calls m) = S i ∧ written m = []) ∧
  (∀ r m,
     main_inference cuda gw mk args dec lm words stem empty_mem = (r, m) →
     calls m !! i = Some c →
     r = inl e ∧ length (calls m) = S i ∧ written m = []).
Proof.
  intros Hc.
  assert (∀ seed_seq verbose r m,
            generate_gestures cuda gw args dec lm words seed_seq verbose empty_mem
              = (r, m) →
            calls m !! i = Some c →
            r = inl e ∧ length (calls m) = S i ∧ written m = []) as Hgen.
  { intros ss vb r m Hrun Hi.
    apply generate_gestures_log in Hrun as (Hw & cs & Hcs & Hlog).
    simpl in Hcs, Hw. rewrite Hcs in *.
    destruct (run_log_failure _ _ _ _ _ _ _ _ Hlog Hi Hc). done. }
  split; [apply Hgen|].
  intros r m. rewrite main_inference_unfold.
  destruct (generate_gestures _ _ _ _ _ _ _ _ empty_mem) as [rg mg] eqn:Hrun.
  destruct rg as [eg|out].
  { intros [= <- <-] Hi.
    destruct (Hgen None true _ _ Hrun Hi) as ([= ->] & ? & ?). done. }
  destruct (rbind _ _) as [e'|mocap].
  - intros [= <- <-] Hi.
    by destruct (Hgen None true _ _ Hrun Hi) as [? _].
  - unfold make_bvh, write_file. intros [= <- <-]. simpl. intros Hi.
    by destruct (Hgen None true _ _ Hrun Hi) as [? _].
Qed.

Lemma predictor_failure_aborts_witness :
  let e := ModelError "malformed input" in
  let args := mk_args 2 1 1 [0%Q] [1%Q] in
  let dec := picky_decoder 1 [[1%Q]; [1%Q]] e in
  let run := main_inference false words_in_range (λ t, inr t) args dec
               demo_vocab [Word "hello" 0 3] "clip" empty_mem in
  run.1 = inl e ∧ length (calls run.2) = 2 ∧ written run.2 = [].
Proof.
  intros e args dec run.
  destruct (predictor_failure_aborts false words_in_range (λ t, inr t) args dec
              demo_vocab [Word "hello" 0 3] None true "clip" 1
              (Call [1; 7; 2]%Z 3 [[1%Q]]) e eq_refl) as [_ H].
  apply (H run.1 run.2).
  - apply surjective_pairing.
  - reflexivity.
Defined.

(** C7 fails as stated: the same terminal error is reported whether the
    predictor fails on window 0 or on window 1, so the error cannot name the
    failing window. *)
Lemma failure_index_counterexample :
  let e := ModelError "malformed input" in
  let args := mk_args 2 1 1 [0%Q] [1%Q] in
  let words := [Word "hello" 0 3] in
  let decA := failing_decoder 1 e in
  let decB := picky_decoder 1 [[1%Q]; [1%Q]] e in
  let runA := generate_gestures false words_in_range args decA demo_vocab
                words None true empty_mem in
  let runB := generate_gestures false words_in_range args decB demo_vocab
                words None true empty_mem in
  (runA.1 = inl e ∧ ∃ c, calls runA.2 !! 0 = Some c ∧ invoke decA c = inl e) ∧
  (runB.1 = inl e ∧ ∃ c, calls runB.2 !! 1 = Some c ∧ invoke decB c = inl e) ∧
  ¬ ∃ window_of : exn → nat,
      (∀ r, runA.1 = inl r → window_of r = 0) ∧
      (∀ r, runB.1 = inl r → window_of r = 1).
Proof.
  intros e args words decA decB runA runB.
  split; [|split].
  - split; [reflexivity|]. eexists. split; reflexivity.
  - split; [reflexivity|]. eexists. split; reflexivity.
  - intros (window_of & HA & HB).
    specialize (HA e eq_refl). specialize (HB e eq_refl). congruence.
Qed.

(** ** The seed of the first window *)

Lemma initial_pre_seq_seed args dec (s : matrix) n :
  n_pre_poses args = Z.of_nat n → n ≤ length s →
  Forall (λ f, length f = pose_dim dec) (take n s) →
  initial_pre_seq args dec (Some s) = inr (take n s).
Proof.
  intros Hn Hlen Hw. unfold initial_pre_seq, torch_zeros. rewrite Hn.
  destruct (Z.ltb_spec (Z.of_nat n) 0) as [?|_]; [lia|]. simpl.
  rewrite py_slice_head, length_replicate, Nat2Z.id.
  apply torch_setitem_same; [|done]. rewrite length_take. lia.
Qed.

Lemma initial_pre_seq_mean args dec n :
  n_pre_poses args = Z.of_nat n →
  length (data_mean args) = pose_dim dec →
  initial_pre_seq args dec None = inr (replicate n (data_mean args)).
Proof.
  intros Hn Hw. unfold initial_pre_seq, torch_zeros. rewrite Hn.
  destruct (Z.ltb_spec (Z.of_nat n) 0) as [?|_]; [lia|]. simpl.
  rewrite length_replicate, Nat2Z.id.
  apply torch_setitem_same; [by rewrite length_replicate|].
  by apply Forall_replicate.
Qed.

(** C10.  In a run that schedules at least one window, the first predictor
    call is seeded with the first [n_pre_poses] frames of [seed_seq] when
    one is supplied (with at least [n_pre_poses] frames, of [pose_dim]
    channels), and with the mean pose repeated [n_pre_poses] times when
    [seed_seq] is [None]. *)
Theorem first_seed cuda gw (args : Args) (dec : Decoder) lm (words : list word)
    verbose (w : word) (sched : schedule) (n : nat) :
  last words = Some w →
  n_pre_poses args = Z.of_nat n →
  make_schedule args (w_end w) = inr sched →
  (1 ≤ Z.min (num_subdivision sched) 59)%Z →
  (∀ (s : matrix) r m,
     n ≤ length s →
     Forall (λ f, length f = pose_dim dec) (take n s) →
     generate_gestures cuda gw args dec lm words (Some s) verbose empty_mem
       = (r, m) →
     ∃ c0, calls m !! 0 = Some c0 ∧ seed c0 = take n s) ∧
  (∀ r m,
     length (data_mean args) = pose_dim dec →
     generate_gestures cuda gw args dec lm words None verbose empty_mem
       = (r, m) →
     ∃ c0, calls m !! 0 = Some c0 ∧ seed c0 = replicate n (data_mean args)).
Proof.
  intros Hw Hn Hsched HN.
  assert (∀ seed_seq pre r m,
            initial_pre_seq args dec seed_seq = inr pre →
            generate_gestures cuda gw args dec lm words seed_seq verbose empty_mem
              = (r, m) →
            ∃ c0, calls m !! 0 = Some c0 ∧ seed c0 = pre) as Hfirst.
  { intros seed_seq pre r m Hpre Hrun.
    assert (prepare args dec lm words seed_seq
            = inr (sched, Locals pre None [] lm)) as Hprep.
    { unfold prepare. rewrite Hw. simpl. rewrite Hpre. simpl. by rewrite Hsched. }
    destruct (generate_gestures_first_call _ _ _ _ _ _ _ _ _ _ _ _ _ Hprep HN Hrun)
      as [cs Hcs].
    rewrite Hcs. simpl. eauto. }
  split.
  - intros s r m Hlen Hshape. apply Hfirst. by apply initial_pre_seq_seed.
  - intros r m Hmean. apply Hfirst. by apply initial_pre_seq_mean.
Qed.

Lemma first_seed_witness :
  let args := mk_args 3 1 1 [0%Q] [1%Q] in
  let dec := const_decoder 1 [[1%Q]; [2%Q]; [3%Q]] in
  let words := [Word "hello" 0 5] in
  (∃ c0, calls (generate_gestures false words_in_range args dec demo_vocab
                  words (Some [[7%Q]; [8%Q]]) true empty_mem).2 !! 0 = Some c0
         ∧ seed c0 = [[7%Q]]) ∧
  (∃ c0, calls (generate_gestures false words_in_range args dec demo_vocab
                  words None true empty_mem).2 !! 0 = Some c0
         ∧ seed c0 = [[0%Q]]).
Proof.
  intros args dec words.
  destruct (first_seed false words_in_range args dec demo_vocab words true
              (Word "hello" 0 5) (Schedule (3 / 1) ((3 - 1) / 1) 2) 1)
    as [HS HN].
  - reflexivity.
  - reflexivity.
  - reflexivity.
  - vm_compute. discriminate.
  - split.
    + eapply (HS [[7%Q]; [8%Q]]).
      * simpl; lia.
      * repeat constructor.
      * apply surjective_pairing.
    + eapply HN.
      * reflexivity.
      * apply surjective_pairing.
Defined.

(** ** Configurations with more seed frames than window frames *)












(** ** The overlap blend in a run *)

Lemma after_windows_eq cuda gw args dec lm words seed_seq sched st0 k m0 :
  prepare args dec lm words seed_seq = inr (sched, st0) →
  after_windows cuda gw args dec lm words seed_seq k m0 =
  windows cuda gw args dec words sched (seq 0 k) st0 m0.
Proof.
  intros Hprep. unfold after_windows.
  by rewrite (bind_inr _ _ _ _ _ (lift_inr _ _ m0 Hprep)).
Qed.

Lemma channel_shape T D (t : matrix) j ch :
  shape T D t → j < T → ch < D → ∃ x, channel t j ch = Some x.
Proof.
  intros [Hl Hw] Hj Hch. unfold channel.
  destruct (lookup_lt_is_Some_2 t j) as [r Hr]; [lia|].
  rewrite Hr. simpl. apply lookup_lt_is_Some_2.
  rewrite (Forall_lookup_1 _ _ _ _ Hw Hr). done.
Qed.

Lemma channel_blend_from n (prevs nexts : matrix) j ch p x :
  channel prevs j ch = Some p → channel nexts j ch = Some x →
  channel (blend_from n 0 prevs nexts) j ch = Some (cross_fade_channel n j p x).
Proof.
  unfold channel. intros Hp Hx.
  destruct (prevs !! j) as [pr|] eqn:Hpr; [|done].
  destruct (nexts !! j) as [xr|] eqn:Hxr; [|done]. simpl in *.
  rewrite (lookup_blend_from n prevs 0 nexts j pr xr Hpr Hxr). simpl.
  unfold cross_fade. by rewrite lookup_zip_with, Hp, Hx.
Qed.

Lemma lookup_blend_from_ge n (prevs : matrix) : ∀ j0 (nexts : matrix) j,
  length prevs ≤ j → blend_from n j0 prevs nexts !! j = nexts !! j.
Proof.
  induction prevs as [|p prevs IH]; intros j0 [|x nexts] j Hj; simpl; try done.
  destruct j as [|j]; simpl in *; [lia|]. apply IH. lia.
Qed.

(** C2.  In a run whose predictor returns [T] frames and whose overlap is
    [1 <= n <= T], window [k > 0] rewrites the first [n] frames of its raw
    output: channel by channel, frame [j < n] becomes
    [previous_tail[j] * (n - j) / (n + 1) + current_raw[j] * (j + 1) / (n + 1)],
    [previous_tail] being the last [n] frames of the array stored for window
    [k - 1].  The frames from [n] on are the raw ones.  At [j = 0] the two
    weights are [n / (n + 1)] and [1 / (n + 1)], at [j = n - 1] they are
    [1 / (n + 1)] and [n / (n + 1)]. *)
Theorem overlap_blend cuda gw (args : Args) (dec : Decoder) lm
    (words : list word) seed_seq (sched : schedule) (st0 : locals)
    (n T k : nat) :
  prepare args dec lm words seed_seq = inr (sched, st0) →
  n_pre_poses args = Z.of_nat n → 1 ≤ n → n ≤ T →
  (∀ it wl s, shape n (pose_dim dec) s →
     ∃ raw, forward dec it wl s = inr raw ∧ shape T (pose_dim dec) raw) →
  1 ≤ k →
  ∃ st m st' m' a a' c (current_raw : matrix),
    after_windows cuda gw args dec lm words seed_seq k empty_mem = (inr st, m) ∧
    after_windows cuda gw args dec lm words seed_seq (S k) empty_mem
      = (inr st', m') ∧
    last (out_list st) = Some a ∧ last (out_list st') = Some a' ∧
    calls m' !! k = Some c ∧ invoke dec c = inr current_raw ∧
    let previous_tail := lastn n (nd_rows (heap m) a) in
    let blended := nd_rows (heap m') a' in
    length previous_tail = n ∧ length current_raw = T ∧ length blended = T ∧
    (∀ j ch, j < n → ch < pose_dim dec →
       ∃ p x, channel previous_tail j ch = Some p ∧
              channel current_raw j ch = Some x ∧
              channel blended j ch =
                Some (p * inject_Z (Z.of_nat n - Z.of_nat j)
                        / inject_Z (Z.of_nat n + 1)
                      + x * inject_Z (Z.of_nat j + 1)
                        / inject_Z (Z.of_nat n + 1))%Q) ∧
    (∀ j, n ≤ j → blended !! j = current_raw !! j) ∧
    (∀ p x, cross_fade_channel n 0 p x =
            (p * inject_Z (Z.of_nat n) / inject_Z (Z.of_nat n + 1)
             + x * 1 / inject_Z (Z.of_nat n + 1))%Q) ∧
    (∀ p x, cross_fade_channel n (n - 1) p x =
            (p * 1 / inject_Z (Z.of_nat n + 1)
             + x * inject_Z (Z.of_nat n) / inject_Z (Z.of_nat n + 1))%Q).
Proof.
  intros Hprep Hn Hn1 HnT Hdec Hk.
  destruct (prepare_inv _ _ _ _ _ _ _ Hprep) as (w & pre & _ & Hpre & _ & ->).
  apply initial_pre_seq_shape in Hpre. rewrite Hn, Nat2Z.id in Hpre.
  destruct (wb_run cuda gw args dec words sched lm n T Hn Hn1 HnT Hdec k
              (Locals pre None [] lm) empty_mem)
    as (st & m & cs & Hrun & Hst & Hcs & Hlen & _); [done|].
  destruct (window_step cuda gw args dec words sched lm n T Hn Hn1 HnT Hdec
              k st m Hst)
    as (st' & m' & pre' & raw & Hwin & Hst' & _ & Hc' & _ & Hinv & a' & Ha' & Hrows).
  destruct k as [|k']; [lia|].
  destruct Hst as (_ & _ & olds&q&p&Bq&raw0&cs0&c0&Hol&_&_&Hq&HsBq&_).
  rewrite Hol, last_snoc in Hrows.
  assert (nd_rows (heap m) (NdArray q 0 T) = Bq) as HBq.
  { unfold nd_rows. simpl. rewrite Hq. simpl. rewrite drop_0.
    apply take_ge. destruct HsBq. lia. }
  rewrite HBq in Hrows.
  exists st, m, st', m', (NdArray q 0 T), a',
    (window_call gw words sched (S k') st pre'), raw.
  split; [by rewrite (after_windows_eq _ _ _ _ _ _ _ _ _ _ _ Hprep)|].
  split.
  { rewrite (after_windows_eq _ _ _ _ _ _ _ _ _ _ _ Hprep).
    rewrite seq_S, windows_app. rewrite (bind_inr _ _ _ _ _ Hrun). simpl.
    by rewrite (bind_inr _ _ _ _ _ Hwin). }
  split; [by rewrite Hol, last_snoc|].
  split; [done|].
  split.
  { rewrite Hc', Hcs. simpl. rewrite <- Hlen. by rewrite list_lookup_middle. }
  split; [done|].
  cbn zeta. rewrite HBq, Hrows.
  assert (shape T (pose_dim dec) raw) as Hsraw.
  { destruct Hst' as (_ & _ & ?&?&?&?&raw1&cs1&c1&_&_&_&_&_&_&_&_&Hcs1&Hinv1&Hs1).
    rewrite Hc' in Hcs1. apply app_inj_tail in Hcs1 as [_ <-]. congruence. }
  assert (shape n (pose_dim dec) (lastn n Bq)) as Hstail.
  { destruct HsBq as [HlBq HwBq]. split; [apply lastn_length; lia|].
    by apply Forall_drop. }
  split; [by destruct Hstail|].
  split; [by destruct Hsraw|].
  split; [rewrite length_blend_from; by destruct Hsraw|].
  split.
  { intros j ch Hj Hch.
    destruct (channel_shape _ _ _ j ch Hstail Hj Hch) as [pv Hpv].
    destruct (channel_shape _ _ _ j ch Hsraw ltac:(lia) Hch) as [x Hx].
    exists pv, x. split; [done|]. split; [done|].
    by apply channel_blend_from. }
  split.
  { intros j Hj. apply lookup_blend_from_ge. by destruct Hstail as [-> _]. }
  split.
  - intros pv x. unfold cross_fade_channel. simpl. by rewrite Z.sub_0_r.
  - intros pv x. unfold cross_fade_channel.
    replace (Z.of_nat n - Z.of_nat (n - 1))%Z with 1%Z by lia.
    by replace (Z.of_nat (n - 1) + 1)%Z with (Z.of_nat n) by lia.
Qed.

Lemma overlap_blend_witness :
  let args := mk_args 3 1 1 [0%Q] [1%Q] in
  let dec := const_decoder 1 [[10%Q]; [20%Q]; [30%Q]] in
  ∃ st' m' a' p x,
    after_windows false words_in_range args dec demo_vocab [Word "hello" 0 5]
      None 2 empty_mem = (inr st', m') ∧
    last (out_list st') = Some a' ∧
    channel (nd_rows (heap m') a') 0 0
      = Some (p * inject_Z (1 - 0) / inject_Z (1 + 1)
              + x * inject_Z (0 + 1) / inject_Z (1 + 1))%Q.
Proof.
  intros args dec.
  destruct (overlap_blend false words_in_range args dec demo_vocab
              [Word "hello" 0 5] None (Schedule (3 / 1) ((3 - 1) / 1) 2)
              (Locals [[0%Q]] None [] demo_vocab) 1 3 1)
    as (st & m & st' & m' & a & a' & c & raw & H1 & H2 & Ha & Ha' & Hc & Hinv
        & _ & _ & _ & Hblend & _).
  - reflexivity.
  - reflexivity.
  - lia.
  - lia.
  - intros it wl s _. eexists. split; [reflexivity|].
    split; [reflexivity|repeat constructor].
  - lia.
  - destruct (Hblend 0 0) as (p & x & Hp & Hx & Hb); [lia|simpl; lia|].
    exists st', m', a', p, x. split; [exact H2|]. split; [exact Ha'|exact Hb].
Defined.

(** The same window on concrete numbers: the seam frame is
    [30 * 1 / 2 + 10 * 1 / 2]. *)
Lemma overlap_blend_example :
  let args := mk_args 3 1 1 [0%Q] [1%Q] in
  let dec := const_decoder 1 [[10%Q]; [20%Q]; [30%Q]] in
  (generate_gestures false words_in_range args dec demo_vocab
     [Word "hello" 0 5] None true empty_mem).1
  = inr [[10%Q]; [20%Q]; [(30 * 1 / 2 + 10 * 1 / 2)%Q]; [20%Q]; [30%Q]].
Proof. vm_compute. reflexivity. Qed.

(** ** Length of the aggregated sequence *)

(** With an overlap [1 <= n_pre_poses <= n_poses] and a predictor that
    returns [n_poses] frames, a run of [N >= 1] windows returns
    [n_poses + (N - 1) * (n_poses - n_pre_poses)] frames. *)
Lemma concatenation_length cuda gw (args : Args) (dec : Decoder) lm
    (words : list word) seed_seq verbose (sched : schedule) (st0 : locals)
    (n T : nat) :
  prepare args dec lm words seed_seq = inr (sched, st0) →
  n_pre_poses args = Z.of_nat n → n_poses args = Z.of_nat T →
  1 ≤ n → n ≤ T →
  (∀ it wl s, shape n (pose_dim dec) s →
     ∃ raw, forward dec it wl s = inr raw ∧ shape T (pose_dim dec) raw) →
  let N := Z.min (num_subdivision sched) 59 in
  (1 ≤ N)%Z →
  ∃ out m,
    generate_gestures cuda gw args dec lm words seed_seq verbose empty_mem
      = (inr out, m) ∧
    Z.of_nat (length (calls m)) = N ∧
    Z.of_nat (length out)
      = (n_poses args + (N - 1) * (n_poses args - n_pre_poses args))%Z.
Proof.
  intros Hprep Hn HT Hn1 HnT Hdec N HN.
  destruct (generate_gestures_wb cuda gw args dec words sched lm n T
              Hn Hn1 HnT Hdec words seed_seq verbose st0 empty_mem
              Hprep eq_refl ltac:(unfold N in HN; lia))
    as (out & m & cs & st & Hrun & _ & _ & Hcs & Hlen & _ & _ & Hout & _).
  exists out, m. split; [done|].
  change subdivision_cap with 59%Z in *. fold N in Hlen, Hout.
  split; [rewrite Hcs; simpl; lia|].
  rewrite Hout, Hn, HT. nia.
Qed.

(** C3 at [n_pre_poses = 0]: two windows of one frame each, no overlap.  Both
    predictor calls return one frame and the claim asks for [1 + (2 - 1) * (1
    - 0) = 2] frames, but the run returns a single frame: [out_list[-1][:-0]]
    empties the first window. *)
Theorem seam_frames_without_overlap :
  let args := mk_args 1 0 1 [0%Q] [1%Q] in
  let run := generate_gestures false words_in_range args text_decoder demo_vocab
               [Word "hello" 0 (1 # 2); Word "you" (3 # 2) 2] None true
               empty_mem in
  match run.1 with
  | inr out => length out = 1
  | inl _ => False
  end ∧
  length (calls run.2) = 2 ∧
  (invoke text_decoder <$> calls run.2) = [inr [[10%Q]]; inr [[6%Q]]] ∧
  (n_poses args + (2 - 1) * (n_poses args - n_pre_poses args) = 2)%Z.
Proof. vm_compute. repeat split. Qed.

(** C4 on the code: with [n_pre_poses = 0] the blend is not a no-op.  With
    windows of two frames the second window fails on line 69, where
    [out_poses[-0:]] is the whole previous output and does not fit the empty
    seed tensor.  With windows of one frame the run completes, the first
    window is emptied by [out_list[-1][:-0]] and the frame of the second is
    averaged with it; the plain concatenation would be the two raw frames. *)
Theorem zero_overlap_not_plain_concatenation :
  let words := [Word "hello" 0 (1 # 2); Word "you" (3 # 2) 2] in
  let run2 := generate_gestures false words_in_range (mk_args 2 0 1 [0%Q] [1%Q])
                (const_decoder 1 [[10%Q]; [20%Q]]) demo_vocab
                [Word "hello" 0 4] None true empty_mem in
  let run1 := generate_gestures false words_in_range (mk_args 1 0 1 [0%Q] [1%Q])
                text_decoder demo_vocab words None true empty_mem in
  (run2.1 = inl RuntimeError ∧ length (calls run2.2) = 1) ∧
  (run1.1 = inr [[(10 * 1 / 2 + 6 * 1 / 2)%Q]] ∧
   (invoke text_decoder <$> calls run1.2) = [inr [[10%Q]]; inr [[6%Q]]]) ∧
  (∀ (l : matrix), py_slice l (Some (- 0)%Z) None = l
                   ∧ py_slice l None (Some (- 0)%Z) = []).
Proof.
  intros words run2 run1. split; [|split].
  - vm_compute. by split.
  - vm_compute. by split.
  - intros l. split.
    + apply (py_slice_tail l 0).
    + apply (py_slice_init l 0).
Qed.

(** ** Seed contexts *)

(** C5, as the code has it.  Every seed handed to the predictor has
    [n_pre_poses] frames of [pose_dim] channels.  In a run with overlap
    [1 <= n <= T] whose predictor returns [T] frames, the first seed is the
    mean pose repeated [n] times when no [seed_seq] is given, and every later
    seed is the last [n] frames of the previous raw output, provided the
    blend cannot reach them: on a CUDA device, where the blend works on a
    host copy, or when [2 * n <= T]. *)
Theorem seed_contexts cuda gw (args : Args) (dec : Decoder) lm
    (words : list word) seed_seq verbose (sched : schedule) (st0 : locals)
    (n T : nat) :
  n_pre_poses args = Z.of_nat n →
  (∀ r m,
     generate_gestures cuda gw args dec lm words seed_seq verbose empty_mem
       = (r, m) →
     Forall (λ c, shape n (pose_dim dec) (seed c)) (calls m)) ∧
  (prepare args dec lm words seed_seq = inr (sched, st0) →
   1 ≤ n → n ≤ T →
   (∀ it wl s, shape n (pose_dim dec) s →
      ∃ raw, forward dec it wl s = inr raw ∧ shape T (pose_dim dec) raw) →
   (1 ≤ Z.min (num_subdivision sched) 59)%Z →
   cuda = true ∨ 2 * n ≤ T →
   ∃ out m,
     generate_gestures cuda gw args dec lm words seed_seq verbose empty_mem
       = (inr out, m) ∧
     length (calls m) = Z.to_nat (Z.min (num_subdivision sched) 59) ∧
     (seed_seq = None → length (data_mean args) = pose_dim dec →
      ∃ c0, calls m !! 0 = Some c0 ∧ seed c0 = replicate n (data_mean args)) ∧
     (∀ i c c', calls m !! i = Some c → calls m !! S i = Some c' →
                ∃ raw, invoke dec c = inr raw ∧ seed c' = lastn n raw)).
Proof.
  intros Hn. split.
  { intros r m Hrun.
    apply generate_gestures_log in Hrun as (_ & cs & Hcs & Hshape & _).
    simpl in Hcs. rewrite Hcs. by rewrite Hn, Nat2Z.id in Hshape. }
  intros Hprep Hn1 HnT Hdec HN Halias.
  destruct (generate_gestures_wb cuda gw args dec words sched lm n T
              Hn Hn1 HnT Hdec words seed_seq verbose st0 empty_mem
              Hprep eq_refl ltac:(lia))
    as (out & m & cs & st & Hrun & _ & _ & Hcs & Hlen & _ & Hchain & _).
  simpl in Hcs. subst cs.
  exists out, m. split; [done|]. split; [done|]. split; [|by apply Hchain].
  intros -> Hmean.
  destruct (generate_gestures_first_call cuda gw args dec lm words None verbose
              sched st0 empty_mem _ _ Hprep HN Hrun) as [cs Hcs].
  rewrite Hcs. simpl. eexists. split; [done|]. simpl.
  apply prepare_inv in Hprep as (w & pre & _ & Hpre & _ & ->). simpl.
  rewrite (initial_pre_seq_mean args dec n Hn Hmean) in Hpre. congruence.
Qed.

Lemma seed_contexts_witness :
  let args := mk_args 3 1 1 [0%Q] [1%Q] in
  let dec := const_decoder 1 [[10%Q]; [20%Q]; [30%Q]] in
  ∃ out m,
    generate_gestures false words_in_range args dec demo_vocab
      [Word "hello" 0 5] None true empty_mem = (inr out, m) ∧
    length (calls m) = 2 ∧
    (∃ c0, calls m !! 0 = Some c0 ∧ seed c0 = [[0%Q]]) ∧
    (∃ c1, calls m !! 1 = Some c1 ∧ seed c1 = [[30%Q]]).
Proof.
  intros args dec.
  destruct (seed_contexts false words_in_range args dec demo_vocab
              [Word "hello" 0 5] None true (Schedule (3 / 1) ((3 - 1) / 1) 2)
              (Locals [[0%Q]] None [] demo_vocab) 1 3 eq_refl) as [_ H].
  destruct H as (out & m & Hrun & Hlen & H0 & Hchain).
  - reflexivity.
  - lia.
  - lia.
  - intros it wl s _. eexists. split; [reflexivity|].
    split; [reflexivity|repeat constructor].
  - vm_compute. discriminate.
  - right. lia.
  - exists out, m. split; [exact Hrun|]. split; [exact Hlen|].
    split; [exact (H0 eq_refl eq_refl)|].
    destruct (H0 eq_refl eq_refl) as (c0 & Hc0 & _).
    destruct (calls m !! 1) as [c1|] eqn:Hc1.
    + exists c1. split; [reflexivity|].
      destruct (Hchain 0 c0 c1 Hc0 Hc1) as (raw & Hraw & ->).
      injection Hraw as <-. reflexivity.
    + apply lookup_ge_None in Hc1. rewrite Hlen in Hc1. simpl in Hc1. lia.
Defined.

(** C5 fails as stated.  With a [seed_seq] the first seed is taken from it,
    not from the mean pose.  And on a CPU device with [2 * n_pre_poses >
    n_poses] the third seed contains a frame already blended in place: the
    array that is blended shares its buffer with the tensor the seed is read
    from. *)
Lemma seed_context_counterexample :
  let dec := const_decoder 1 [[10%Q]; [20%Q]; [30%Q]] in
  let words := [Word "hello" 0 5] in
  let runS := generate_gestures false words_in_range (mk_args 3 1 1 [0%Q] [1%Q])
                dec demo_vocab words (Some [[7%Q]]) true empty_mem in
  let runC := generate_gestures false words_in_range (mk_args 3 2 1 [0%Q] [1%Q])
                dec demo_vocab words None true empty_mem in
  ((seed <$> calls runS.2 !! 0) = Some [[7%Q]] ∧ ¬ (7 == 0)%Q) ∧
  ((invoke dec <$> calls runC.2 !! 1) = Some (inr [[10%Q]; [20%Q]; [30%Q]]) ∧
   lastn 2 [[10%Q]; [20%Q]; [30%Q]] = [[20%Q]; [30%Q]] ∧
   (seed <$> calls runC.2 !! 2)
     = Some [[(30 * 1 / 3 + 20 * 2 / 3)%Q]; [30%Q]] ∧
   ¬ (30 * 1 / 3 + 20 * 2 / 3 == 20)%Q).
Proof. vm_compute. repeat split; discriminate. Qed.

(** * Further properties of the code *)

(** ** Stored windows are never rewritten *)

Lemma writes_only_ret q {A} (a : A) : writes_only q (ret a).
Proof. by intros m. Qed.

Lemma writes_only_raise q {A} e : writes_only q (@raise A e).
Proof. by intros m. Qed.

Lemma writes_only_lift q {A} (r : result A) : writes_only q (lift r).
Proof. by intros m. Qed.

Lemma writes_only_load q p : writes_only q (load p).
Proof. by intros m. Qed.

Lemma writes_only_store q t : writes_only q (store q t).
Proof.
  intros m. simpl. split; [by rewrite length_insert|].
  intros p Hp. by rewrite list_lookup_insert_ne.
Qed.

Lemma writes_only_bind q {A B} (c : M A) (k : A → M B) :
  writes_only q c → (∀ a, writes_only q (k a)) → writes_only q (bind c k).
Proof.
  intros Hc Hk m. unfold bind. specialize (Hc m).
  destruct (c m) as [[e|a] m']; simpl in *; [done|].
  destruct (Hk a m') as [Hl Hp]. destruct Hc as [Hl' Hp'].
  split; [congruence|]. intros p Hne. rewrite Hp by done. by apply Hp'.
Qed.

Lemma writes_only_nd_get q a j : writes_only q (nd_get a j).
Proof.
  unfold nd_get. case_decide; [|apply writes_only_raise].
  apply writes_only_bind; [apply writes_only_load|].
  intros t. apply writes_only_ret.
Qed.

Lemma writes_only_nd_set a j v : writes_only (base a) (nd_set a j v).
Proof.
  unfold nd_set. case_decide; [|apply writes_only_raise].
  apply writes_only_bind; [apply writes_only_load|]. intros t.
  apply writes_only_bind; [apply writes_only_lift|]. intros v'.
  apply writes_only_store.
Qed.

Lemma writes_only_blend_loop js last_poses out_seq :
  writes_only (base out_seq) (blend_loop js last_poses out_seq).
Proof.
  induction js as [|j js IH]; simpl; [apply writes_only_ret|].
  apply writes_only_bind; [apply writes_only_nd_get|]. intros prev.
  apply writes_only_bind; [apply writes_only_nd_get|]. intros next.
  apply writes_only_bind; [apply writes_only_lift|]. intros v.
  apply writes_only_bind; [apply writes_only_nd_set|]. intros _. apply IH.
Qed.

Lemma writes_only_smooth_transition args out_list out_seq :
  writes_only (base out_seq) (smooth_transition args out_list out_seq).
Proof.
  unfold smooth_transition. destruct (last out_list); [|apply writes_only_ret].
  apply writes_only_bind; [apply writes_only_blend_loop|].
  intros _. apply writes_only_ret.
Qed.

Lemma smooth_transition_inv args out_list out_seq m out_list' m' :
  smooth_transition args out_list out_seq m = (inr out_list', m') →
  out_list' =
    match last out_list with
    | Some prev_seq =>
        <[length out_list - 1 :=
            nd_slice prev_seq None (Some (- n_pre_poses args)%Z)]> out_list
    | None => out_list
    end ++ [out_seq].
Proof.
  unfold smooth_transition. destruct (last out_list) as [a|].
  - intros H. apply bind_inv_inr in H as (? & m1 & _ & H).
    unfold ret in H. by simplify_eq.
  - unfold ret. by intros [= <- _].
Qed.

Lemma nd_rows_ext h h' a : h !! base a = h' !! base a → nd_rows h a = nd_rows h' a.
Proof. unfold nd_rows. by intros ->. Qed.

(** A window that completes leaves every buffer that existed before it as
    it was, and the arrays it stores are the ones stored before, the last
    of them cut by [[:-n_pre_poses]], followed by one new array that lives
    in a new buffer. *)
Lemma window_history cuda gw args dec words sched k st m st' m' :
  window cuda gw args dec words sched k st m = (inr st', m') →
  (∀ p, p < length (heap m) → heap m' !! p = heap m !! p) ∧
  ∃ out_seq,
    length (heap m) ≤ base out_seq ∧
    out_list st' =
      match last (out_list st) with
      | Some prev_seq =>
          <[length (out_list st) - 1 :=
              nd_slice prev_seq None (Some (- n_pre_poses args)%Z)]> (out_list st)
      | None => out_list st
      end ++ [out_seq].
Proof.
  rewrite window_unfold.
  destruct (window_seed args dec k st (heap m)) as [e|pre]; [discriminate|].
  cbn zeta. destruct (invoke dec _) as [e|raw]; [discriminate|].
  unfold window_rest. intros H.
  apply bind_inv_inr in H as (p & m2 & Halloc & H).
  rewrite alloc_eq in Halloc. injection Halloc as <- <-.
  apply bind_inv_inr in H as (out_seq & m3 & Hnp & H).
  erewrite to_numpy_eq in Hnp; last first.
  { simpl. by apply list_lookup_middle. }
  injection Hnp as <- <-.
  apply bind_inv_inr in H as (out_list' & m4 & Hsm & H).
  unfold ret in H. injection H as <- <-.
  pose proof (smooth_transition_inv _ _ _ _ _ _ Hsm) as Hol.
  destruct (writes_only_smooth_transition args (out_list st)
              (NdArray (if cuda then length (heap m ++ [raw]) else length (heap m))
                 0 (length raw))
              (if cuda
               then set_heap (set_heap
                      (Mem (heap m) (calls m ++ [window_call gw words sched k st pre])
                         (written m)) (heap m ++ [raw]))
                      ((heap m ++ [raw]) ++ [raw])
               else set_heap
                      (Mem (heap m) (calls m ++ [window_call gw words sched k st pre])
                         (written m)) (heap m ++ [raw])))
    as [_ Hframe].
  simpl in Hsm. rewrite Hsm in Hframe. simpl in Hframe.
  split.
  - intros p0 Hp0. rewrite Hframe.
    + destruct cuda; simpl.
      * rewrite <- (assoc_L (++)). by rewrite lookup_app_l.
      * by rewrite lookup_app_l.
    + destruct cuda; simpl; [rewrite length_app; simpl|]; lia.
  - eexists. split; [|exact Hol].
    destruct cuda; simpl; [rewrite length_app; simpl|]; lia.
Qed.

(** ** The returned sequence as a fold over the raw outputs *)

Lemma stitch_snoc n (raws : list matrix) (raw : matrix) :
  raws ≠ [] → stitch n (raws ++ [raw]) = stitch_step n (stitch n raws) raw.
Proof.
  destruct raws as [|r0 rest]; [done|]. intros _. simpl. by rewrite foldl_app.
Qed.

Lemma lastn_app {A} k (l1 l2 : list A) :
  k ≤ length l2 → lastn k (l1 ++ l2) = lastn k l2.
Proof.
  intros Hk. unfold lastn. rewrite length_app, drop_app.
  rewrite drop_ge by lia.
  by replace (length l1 + length l2 - k - length l1) with (length l2 - k) by lia.
Qed.

Lemma take_app_sub {A} k (l1 l2 : list A) :
  k ≤ length l2 →
  take (length (l1 ++ l2) - k) (l1 ++ l2) = l1 ++ take (length l2 - k) l2.
Proof.
  intros Hk. rewrite length_app, take_app.
  rewrite take_ge by lia.
  by replace (length l1 + length l2 - k - length l1) with (length l2 - k) by lia.
Qed.

Lemma running_snoc h arrays a :
  running h (arrays ++ [a]) = running h arrays ++ nd_rows h a.
Proof.
  unfold running. rewrite fmap_app, concat_app. simpl. by rewrite app_nil_r.
Qed.

Lemma running_ext h h' arrays :
  Forall (λ a, h !! base a = h' !! base a) arrays →
  running h arrays = running h' arrays.
Proof.
  unfold running. induction 1 as [|a arrays Ha _ IH]; [done|].
  rewrite !fmap_cons. cbn [concat]. by rewrite (nd_rows_ext h h' a Ha), IH.
Qed.

Lemma window_call_lang_model gw words sched i st st' pre :
  lang_model st = lang_model st' →
  window_call gw words sched i st pre = window_call gw words sched i st' pre.
Proof. unfold window_call. by intros ->. Qed.

Section Stitched.

Variables (cuda : bool) (gw : list word → Q → Q → list word).
Variables (args : Args) (dec : Decoder) (words : list word) (sched : schedule).
Variables (lm : Vocab) (n T : nat).

Hypothesis Hn : n_pre_poses args = Z.of_nat n.
Hypothesis Hn1 : 1 ≤ n.
Hypothesis HnT : n ≤ T.
Hypothesis Hdec : ∀ it wl s,
  shape n (pose_dim dec) s →
  ∃ raw, forward dec it wl s = inr raw ∧ shape T (pose_dim dec) raw.

(** One more window: the running sequence is stitched with the new raw
    output. *)
Lemma window_step_running k st m :
  wb_state cuda dec lm n T k st m →
  ∃ st' m' pre raw,
    window cuda gw args dec words sched k st m = (inr st', m') ∧
    wb_state cuda dec lm n T (S k) st' m' ∧
    window_seed args dec k st (heap m) = inr pre ∧
    calls m' = calls m ++ [window_call gw words sched k st pre] ∧
    invoke dec (window_call gw words sched k st pre) = inr raw ∧
    running (heap m') (out_list st') =
      match k with
      | 0 => raw
      | S _ => stitch_step n (running (heap m) (out_list st)) raw
      end.
Proof.
  intros Hst.
  destruct (window_step cuda gw args dec words sched lm n T Hn Hn1 HnT Hdec
              k st m Hst)
    as (st' & m' & pre & raw & Hwin & Hst' & Hseed & Hc' & _ & Hinv
        & a' & Ha' & Hrows).
  exists st', m', pre, raw. do 5 (split; [done|]).
  destruct (window_history _ _ _ _ _ _ _ _ _ _ _ Hwin)
    as (Hframe & out_seq & _ & Hol').
  destruct Hst as (_ & _ & Hk). destruct k as [|k].
  - destruct Hk as [Hol _]. rewrite Hol in Hol', Hrows. simpl in Hol', Hrows.
    rewrite Hol' in Ha'. injection Ha' as <-.
    rewrite Hol'. unfold running. simpl. by rewrite app_nil_r.
  - destruct Hk as (olds&q&p&Bq&raw0&cs&c0&Hol&_&Htr&Hq&[HlBq HwBq]&_).
    rewrite Hol, last_snoc in Hol', Hrows.
    rewrite Hn, nd_slice_init, decide_False in Hol' by lia. simpl in Hol'.
    rewrite length_app in Hol'. simpl in Hol'.
    replace (length olds + 1 - 1) with (length olds + 0) in Hol' by lia.
    rewrite insert_app_r in Hol'. simpl in Hol'.
    rewrite Hol', last_snoc in Ha'. injection Ha' as <-.
    assert (nd_rows (heap m) (NdArray q 0 T) = Bq) as HBq.
    { unfold nd_rows. simpl. rewrite Hq. simpl. rewrite drop_0.
      apply take_ge. lia. }
    rewrite HBq in Hrows.
    rewrite Hol', Hol, !running_snoc, Hrows, HBq.
    assert (running (heap m') olds = running (heap m) olds) as ->.
    { apply running_ext. eapply Forall_impl; [exact Htr|].
      intros a (_ & _ & B & HB & _). simpl. apply Hframe.
      by eapply lookup_lt_Some. }
    assert (nd_rows (heap m') (NdArray q 0 (T - n - 0)) = take (T - n) Bq) as ->.
    { unfold nd_rows. simpl. rewrite Hframe by (by eapply lookup_lt_Some).
      rewrite Hq. simpl. by rewrite drop_0, Nat.sub_0_r. }
    unfold stitch_step.
    rewrite take_app_sub, lastn_app by lia.
    by rewrite HlBq, <- (assoc_L (++)).
Qed.

Lemma wb_run_stitched k : ∀ st0 m0,
  wb_state cuda dec lm n T 0 st0 m0 → calls m0 = [] →
  ∃ st m raws,
    windows cuda gw args dec words sched (seq 0 k) st0 m0 = (inr st, m) ∧
    wb_state cuda dec lm n T k st m ∧
    (invoke dec <$> calls m) = (inr <$> raws) ∧ length raws = k ∧
    running (heap m) (out_list st) = stitch n raws ∧
    (∀ i c' (raw : matrix),
       calls m !! S i = Some c' → raws !! i = Some raw →
       seed c' = lastn n (if cuda then raw else stitch n (take (S i) raws))) ∧
    (cuda = true ∨ 2 * n ≤ T →
     let s := ref_run gw words sched lm dec n (pre_seq st0) k in
     calls m = ref_calls s ∧ raws = ref_raws s ∧
     ref_seed s = match last raws with
                  | Some raw => lastn n raw
                  | None => pre_seq st0
                  end).
Proof.
  induction k as [|k IH]; intros st0 m0 H0 Hc0.
  { exists st0, m0, []. split; [done|]. split; [done|].
    split; [by rewrite Hc0|]. split; [done|].
    split; [by destruct H0 as (_ & _ & -> & _)|].
    split; [by intros i c' raw; rewrite Hc0|].
    intros _. by rewrite Hc0. }
  destruct (IH st0 m0 H0 Hc0)
    as (st & m & raws & Hrun & Hst & Hraws & Hlen & Hrunning & Hseeds & Href).
  destruct (window_step_running k st m Hst)
    as (st' & m' & pre & raw & Hwin & Hst' & Hseed & Hc' & Hinv & Hrunning').
  assert (length (calls m) = k) as Hlc.
  { rewrite <- Hlen, <- (length_fmap (invoke dec)), Hraws. by rewrite length_fmap. }
  (* the seed of the new call *)
  assert (match k with
          | 0 => pre = pre_seq st0
          | S k' => ∀ raw0 : matrix, raws !! k' = Some raw0 →
                    pre = lastn n (if cuda then raw0 else stitch n raws)
          end) as Hpre.
  { destruct (window_seed_step cuda args dec lm n T Hn Hn1 HnT k st m Hst)
      as (pre' & Hseed' & _ & Hpre').
    assert (pre' = pre) as -> by congruence.
    destruct k as [|k'].
    - subst pre. by injection Hrun as <- _.
    - destruct Hpre' as (p & Bp & Hp & HBp & ->).
      destruct Hst as (_ & _ & olds&q&p0&Bq&raw1&cs&c0&Hol&_&_&Hq&[HlBq _]&_&Hp0&HBp0&Hcs&Hinv0&_).
      intros raw0 Hraw0.
      assert (raw1 = raw0) as ->.
      { rewrite Hcs, fmap_app in Hraws. simpl in Hraws.
        assert (length cs = k') as Hlcs.
        { rewrite Hcs, length_app in Hlc. simpl in Hlc. lia. }
        assert ((inr <$> raws) !! k' = Some (inr raw0 : result matrix)) as Hk'
          by (by rewrite list_lookup_fmap, Hraw0).
        rewrite <- Hraws, lookup_app_r, length_fmap, Hlcs, Nat.sub_diag in Hk'
          by (rewrite length_fmap; lia).
        simpl in Hk'. congruence. }
      assert (p0 = p) as -> by congruence.
      rewrite HBp0 in HBp. injection HBp as <-.
      destruct cuda; [done|].
      rewrite <- Hrunning, Hol, running_snoc.
      assert (nd_rows (heap m) (NdArray q 0 T) = Bq) as ->.
      { unfold nd_rows. simpl. rewrite Hq. simpl. rewrite drop_0.
        apply take_ge. lia. }
      by rewrite lastn_app by lia. }
  exists st', m', (raws ++ [raw]).
  split.
  { rewrite seq_S, windows_app. rewrite (bind_inr _ _ _ _ _ Hrun). simpl.
    by rewrite (bind_inr _ _ _ _ _ Hwin). }
  split; [done|].
  split; [by rewrite Hc', !fmap_app, Hraws; simpl; rewrite Hinv|].
  split; [rewrite length_app; simpl; lia|].
  split.
  { rewrite Hrunning'. destruct k as [|k'].
    - by destruct raws.
    - rewrite stitch_snoc by (by destruct raws). by rewrite Hrunning. }
  split.
  { intros i c' raw0 Hi Hraw0. rewrite Hc' in Hi.
    destruct (decide (S i < k)) as [Hlt|Hge].
    - rewrite lookup_app_l in Hi by lia.
      rewrite lookup_app_l in Hraw0 by lia.
      rewrite take_app_le by lia. by apply Hseeds.
    - apply lookup_lt_Some in Hi as Hi'. rewrite length_app in Hi'.
      simpl in Hi'. assert (S i = k) as <- by lia.
      rewrite lookup_app_r, Hlc, Nat.sub_diag in Hi by lia.
      injection Hi as <-. simpl.
      rewrite lookup_app_l in Hraw0 by lia.
      rewrite take_app_le, take_ge by lia.
      by apply Hpre. }
  intros Halias. destruct (Href Halias) as (Hrc & Hrr & Hrs).
  unfold ref_run in *. rewrite seq_S, foldl_app. simpl.
  set (s := foldl _ _ (seq 0 k)) in *. unfold ref_step.
  assert (window_call gw words sched k (Locals [] None [] lm) (ref_seed s)
          = window_call gw words sched k st pre) as ->.
  { assert (ref_seed s = pre) as ->.
    { rewrite Hrs. destruct k as [|k'].
      - by destruct raws.
      - destruct (lookup_lt_is_Some_2 raws k') as [raw0 Hraw0]; [lia|].
        assert (last raws = Some raw0) as ->.
        { rewrite last_lookup, Hlen. done. }
        rewrite (Hpre raw0 Hraw0). destruct cuda; [done|].
        destruct Halias as [?|Halias]; [done|].
        destruct Hst as (_ & _ & olds&q&p0&Bq&raw1&cs&c0&Hol&_&_&Hq&[HlBq _]&Hdrop&_&_&Hcs&Hinv0&[Hlr _]).
        assert (raw1 = raw0) as ->.
        { rewrite Hcs, fmap_app in Hraws. simpl in Hraws.
          assert (length cs = k') as Hlcs.
          { rewrite Hcs, length_app in Hlc. simpl in Hlc. lia. }
          assert ((inr <$> raws) !! k' = Some (inr raw0 : result matrix)) as Hk'
            by (by rewrite list_lookup_fmap, Hraw0).
          rewrite <- Hraws, lookup_app_r, length_fmap, Hlcs, Nat.sub_diag in Hk'
            by (rewrite length_fmap; lia).
          simpl in Hk'. congruence. }
        rewrite <- Hrunning, Hol, running_snoc.
        assert (nd_rows (heap m) (NdArray q 0 T) = Bq) as ->.
        { unfold nd_rows. simpl. rewrite Hq. simpl. rewrite drop_0.
          apply take_ge. lia. }
        rewrite lastn_app by lia. symmetry.
        apply lastn_drop_eq; [congruence|lia|done]. }
    apply window_call_lang_model. simpl. by destruct Hst as (_ & -> & _). }
  rewrite Hinv. simpl. rewrite Hc', Hrc, Hrr. split; [done|]. split; [done|].
  by rewrite last_snoc.
Qed.

End Stitched.

Lemma np_vstack_inv arrays m (out : matrix) m' :
  np_vstack arrays m = (inr out, m') → out = running (heap m) arrays ∧ m' = m.
Proof.
  unfold np_vstack, running. destruct arrays as [|a arrays]; [discriminate|].
  destruct (forallb _ _); [|discriminate]. by intros [= <- <-].
Qed.

Lemma aggregate_inv verbose num st m (out : matrix) m' :
  aggregate verbose num st m = (inr out, m') →
  out = running (heap m) (out_list st) ∧ m' = m.
Proof.
  unfold aggregate, bind.
  destruct verbose; [destruct (num =? 0)%Z|]; simpl; try discriminate;
    apply np_vstack_inv.
Qed.

Lemma generate_gestures_run_stitched cuda gw (args : Args) (dec : Decoder) lm
    (words : list word) seed_seq verbose (sched : schedule) (st0 : locals)
    (n T : nat) :
  prepare args dec lm words seed_seq = inr (sched, st0) →
  n_pre_poses args = Z.of_nat n → 1 ≤ n → n ≤ T →
  (∀ it wl s, shape n (pose_dim dec) s →
     ∃ raw, forward dec it wl s = inr raw ∧ shape T (pose_dim dec) raw) →
  (1 ≤ Z.min (num_subdivision sched) 59)%Z →
  ∃ out m raws,
    generate_gestures cuda gw args dec lm words seed_seq verbose empty_mem
      = (inr out, m) ∧
    (invoke dec <$> calls m) = (inr <$> raws) ∧
    length raws = Z.to_nat (Z.min (num_subdivision sched) 59) ∧
    out = stitch n raws ∧
    (∀ i c' (raw : matrix),
       calls m !! S i = Some c' → raws !! i = Some raw →
       seed c' = lastn n (if cuda then raw else stitch n (take (S i) raws))) ∧
    (cuda = true ∨ 2 * n ≤ T →
     let s := ref_run gw words sched lm dec n (pre_seq st0)
                (Z.to_nat (Z.min (num_subdivision sched) 59)) in
     calls m = ref_calls s ∧ raws = ref_raws s).
Proof.
  intros Hprep Hn Hn1 HnT Hdec HN.
  destruct (generate_gestures_wb cuda gw args dec words sched lm n T
              Hn Hn1 HnT Hdec words seed_seq verbose st0 empty_mem
              Hprep eq_refl ltac:(lia))
    as (out & m & cs & st & Hgen & Hrun & _).
  destruct (prepare_inv _ _ _ _ _ _ _ Hprep) as (w & pre & _ & Hpre & _ & ->).
  apply initial_pre_seq_shape in Hpre. rewrite Hn, Nat2Z.id in Hpre.
  destruct (wb_run_stitched cuda gw args dec words sched lm n T Hn Hn1 HnT Hdec
              (Z.to_nat (Z.min (num_subdivision sched) subdivision_cap))
              (Locals pre None [] lm) empty_mem)
    as (st2 & m2 & raws & Hrun2 & _ & Hraws & Hlen & Hrunning & Hseeds & Href);
    [done|done|].
  rewrite Hrun in Hrun2. injection Hrun2 as <- <-.
  exists out, m, raws. split; [done|]. split; [done|]. split; [done|].
  split.
  { pose proof Hgen as Hgen'.
    rewrite generate_gestures_unfold, Hprep in Hgen'. cbn zeta in Hgen'.
    rewrite (bind_inr _ _ _ _ _ Hrun) in Hgen'.
    apply aggregate_inv in Hgen' as [-> _]. done. }
  split; [done|].
  intros Halias. by destruct (Href Halias) as (? & ? & _).
Qed.

(** X1.  The returned sequence is a fold over the raw predictor outputs:
    it starts as the first output and, for each further output, loses its
    last [n] frames and gains the new output, whose first [n] frames are
    cross-faded against the frames just lost. *)
Theorem generate_gestures_stitched cuda gw (args : Args) (dec : Decoder) lm
    (words : list word) seed_seq verbose (sched : schedule) (st0 : locals)
    (n T : nat) :
  prepare args dec lm words seed_seq = inr (sched, st0) →
  n_pre_poses args = Z.of_nat n → 1 ≤ n → n ≤ T →
  (∀ it wl s, shape n (pose_dim dec) s →
     ∃ raw, forward dec it wl s = inr raw ∧ shape T (pose_dim dec) raw) →
  (1 ≤ Z.min (num_subdivision sched) 59)%Z →
  ∃ out m raws,
    generate_gestures cuda gw args dec lm words seed_seq verbose empty_mem
      = (inr out, m) ∧
    (invoke dec <$> calls m) = (inr <$> raws) ∧
    out = foldl (λ sequence raw,
                   take (length sequence - n) sequence
                   ++ blend_from n 0 (lastn n sequence) raw)
                (default [] (head raws)) (tail raws).
Proof.
  intros Hprep Hn Hn1 HnT Hdec HN.
  destruct (generate_gestures_run_stitched cuda gw args dec lm words seed_seq
              verbose sched st0 n T Hprep Hn Hn1 HnT Hdec HN)
    as (out & m & raws & Hgen & Hraws & Hlen & -> & _).
  exists (stitch n raws), m, raws. split; [done|]. split; [done|].
  destruct raws as [|raw rest]; [|done]. simpl in Hlen. lia.
Qed.

Lemma generate_gestures_stitched_witness :
  let dec := const_decoder 1 [[10%Q]; [20%Q]; [30%Q]] in
  ∃ out m raws,
    generate_gestures false words_in_range (mk_args 3 1 1 [0%Q] [1%Q]) dec
      demo_vocab [Word "hello" 0 5] None true empty_mem = (inr out, m) ∧
    (invoke dec <$> calls m) = (inr <$> raws) ∧
    out = foldl (λ sequence raw,
                   take (length sequence - 1) sequence
                   ++ blend_from 1 0 (lastn 1 sequence) raw)
                (default [] (head raws)) (tail raws).
Proof.
  intros dec.
  apply (generate_gestures_stitched false words_in_range
           (mk_args 3 1 1 [0%Q] [1%Q]) dec demo_vocab
           [Word "hello" 0 5] None true (Schedule (3 / 1) ((3 - 1) / 1) 2)
           (Locals [[0%Q]] None [] demo_vocab) 1 3).
  - reflexivity.
  - reflexivity.
  - lia.
  - lia.
  - intros it wl s _. eexists. split; [reflexivity|].
    split; [reflexivity|repeat constructor].
  - vm_compute. discriminate.
Defined.

(** X2.  Where every later seed is read from: the last [n] frames of the
    previous raw output on a CUDA device, and the last [n] frames of the
    running sequence, blended frames included, on a CPU device, where the
    array that is blended shares its buffer with the predictor's tensor. *)
Theorem later_seeds cuda gw (args : Args) (dec : Decoder) lm
    (words : list word) seed_seq verbose (sched : schedule) (st0 : locals)
    (n T : nat) :
  prepare args dec lm words seed_seq = inr (sched, st0) →
  n_pre_poses args = Z.of_nat n → 1 ≤ n → n ≤ T →
  (∀ it wl s, shape n (pose_dim dec) s →
     ∃ raw, forward dec it wl s = inr raw ∧ shape T (pose_dim dec) raw) →
  (1 ≤ Z.min (num_subdivision sched) 59)%Z →
  ∃ out m raws,
    generate_gestures cuda gw args dec lm words seed_seq verbose empty_mem
      = (inr out, m) ∧
    (invoke dec <$> calls m) = (inr <$> raws) ∧
    ∀ i c' (raw : matrix),
      calls m !! S i = Some c' → raws !! i = Some raw →
      seed c' = lastn n (if cuda then raw else stitch n (take (S i) raws)).
Proof.
  intros Hprep Hn Hn1 HnT Hdec HN.
  destruct (generate_gestures_run_stitched cuda gw args dec lm words seed_seq
              verbose sched st0 n T Hprep Hn Hn1 HnT Hdec HN)
    as (out & m & raws & Hgen & Hraws & _ & _ & Hseeds & _).
  by exists out, m, raws.
Qed.

Lemma later_seeds_witness :
  let dec := const_decoder 1 [[10%Q]; [20%Q]; [30%Q]] in
  ∃ out m raws,
    generate_gestures false words_in_range (mk_args 3 2 1 [0%Q] [1%Q]) dec
      demo_vocab [Word "hello" 0 5] None true empty_mem = (inr out, m) ∧
    (invoke dec <$> calls m) = (inr <$> raws) ∧
    ∀ i c' (raw : matrix),
      calls m !! S i = Some c' → raws !! i = Some raw →
      seed c' = lastn 2 (stitch 2 (take (S i) raws)).
Proof.
  intros dec.
  apply (later_seeds false words_in_range (mk_args 3 2 1 [0%Q] [1%Q]) dec
           demo_vocab [Word "hello" 0 5] None true
           (Schedule (3 / 1) ((3 - 2) / 1) 3)
           (Locals [[0%Q]; [0%Q]] None [] demo_vocab) 2 3).
  - reflexivity.
  - reflexivity.
  - lia.
  - lia.
  - intros it wl s _. eexists. split; [reflexivity|].
    split; [reflexivity|repeat constructor].
  - vm_compute. discriminate.
Defined.

(** X3.  When the blend cannot reach the frames the next seed is read
    from (CUDA device, or [2 * n <= T]), the run is the value-level run
    [ref_run]: same predictor calls, in the same order, and the returned
    sequence is the stitching of its raw outputs. *)
Theorem generate_gestures_reference cuda gw (args : Args) (dec : Decoder) lm
    (words : list word) seed_seq verbose (sched : schedule) (st0 : locals)
    (n T : nat) :
  prepare args dec lm words seed_seq = inr (sched, st0) →
  n_pre_poses args = Z.of_nat n → 1 ≤ n → n ≤ T →
  (∀ it wl s, shape n (pose_dim dec) s →
     ∃ raw, forward dec it wl s = inr raw ∧ shape T (pose_dim dec) raw) →
  (1 ≤ Z.min (num_subdivision sched) 59)%Z →
  cuda = true ∨ 2 * n ≤ T →
  let s := ref_run gw words sched lm dec n (pre_seq st0)
             (Z.to_nat (Z.min (num_subdivision sched) 59)) in
  ∃ m,
    generate_gestures cuda gw args dec lm words seed_seq verbose empty_mem
      = (inr (stitch n (ref_raws s)), m) ∧
    calls m = ref_calls s.
Proof.
  intros Hprep Hn Hn1 HnT Hdec HN Halias s.
  destruct (generate_gestures_run_stitched cuda gw args dec lm words seed_seq
              verbose sched st0 n T Hprep Hn Hn1 HnT Hdec HN)
    as (out & m & raws & Hgen & _ & _ & -> & _ & Href).
  destruct (Href Halias) as [Hc ->]. by exists m.
Qed.

Lemma generate_gestures_reference_witness :
  let dec := const_decoder 1 [[10%Q]; [20%Q]; [30%Q]] in
  let sched := Schedule (3 / 1) ((3 - 1) / 1) 2 in
  let s := ref_run words_in_range [Word "hello" 0 5] sched demo_vocab dec 1
             [[0%Q]] 2 in
  ∃ m,
    generate_gestures false words_in_range (mk_args 3 1 1 [0%Q] [1%Q]) dec
      demo_vocab [Word "hello" 0 5] None true empty_mem
      = (inr (stitch 1 (ref_raws s)), m) ∧
    calls m = ref_calls s.
Proof.
  intros dec sched s.
  apply (generate_gestures_reference false words_in_range
           (mk_args 3 1 1 [0%Q] [1%Q]) dec demo_vocab
           [Word "hello" 0 5] None true sched
           (Locals [[0%Q]] None [] demo_vocab) 1 3).
  - reflexivity.
  - reflexivity.
  - lia.
  - lia.
  - intros it wl s' _. eexists. split; [reflexivity|].
    split; [reflexivity|repeat constructor].
  - vm_compute. discriminate.
  - right. lia.
Defined.

(** X4.  With [2 * n <= T] the device makes no difference: on CUDA and on
    CPU the run returns the same sequence after the same predictor calls. *)
Theorem device_independent gw (args : Args) (dec : Decoder) lm
    (words : list word) seed_seq verbose (sched : schedule) (st0 : locals)
    (n T : nat) :
  prepare args dec lm words seed_seq = inr (sched, st0) →
  n_pre_poses args = Z.of_nat n → 1 ≤ n → 2 * n ≤ T →
  (∀ it wl s, shape n (pose_dim dec) s →
     ∃ raw, forward dec it wl s = inr raw ∧ shape T (pose_dim dec) raw) →
  (1 ≤ Z.min (num_subdivision sched) 59)%Z →
  ∃ out m_cuda m_cpu,
    generate_gestures true gw args dec lm words seed_seq verbose empty_mem
      = (inr out, m_cuda) ∧
    generate_gestures false gw args dec lm words seed_seq verbose empty_mem
      = (inr out, m_cpu) ∧
    calls m_cuda = calls m_cpu.
Proof.
  intros Hprep Hn Hn1 HnT Hdec HN.
  destruct (generate_gestures_run_stitched true gw args dec lm words seed_seq
              verbose sched st0 n T Hprep Hn Hn1 ltac:(lia) Hdec HN)
    as (out1 & m1 & raws1 & Hg1 & _ & _ & -> & _ & Href1).
  destruct (generate_gestures_run_stitched false gw args dec lm words seed_seq
              verbose sched st0 n T Hprep Hn Hn1 ltac:(lia) Hdec HN)
    as (out2 & m2 & raws2 & Hg2 & _ & _ & -> & _ & Href2).
  destruct (Href1 ltac:(by left)) as [Hc1 ->].
  destruct (Href2 ltac:(by right)) as [Hc2 ->].
  eexists _, m1, m2. split; [exact Hg1|]. split; [exact Hg2|]. congruence.
Qed.

Lemma device_independent_witness :
  let dec := const_decoder 1 [[10%Q]; [20%Q]; [30%Q]] in
  ∃ out m_cuda m_cpu,
    generate_gestures true words_in_range (mk_args 3 1 1 [0%Q] [1%Q]) dec
      demo_vocab [Word "hello" 0 5] None true empty_mem = (inr out, m_cuda) ∧
    generate_gestures false words_in_range (mk_args 3 1 1 [0%Q] [1%Q]) dec
      demo_vocab [Word "hello" 0 5] None true empty_mem = (inr out, m_cpu) ∧
    calls m_cuda = calls m_cpu.
Proof.
  intros dec.
  apply (device_independent words_in_range (mk_args 3 1 1 [0%Q] [1%Q]) dec
           demo_vocab [Word "hello" 0 5] None true
           (Schedule (3 / 1) ((3 - 1) / 1) 2)
           (Locals [[0%Q]] None [] demo_vocab) 1 3).
  - reflexivity.
  - reflexivity.
  - lia.
  - lia.
  - intros it wl s _. eexists. split; [reflexivity|].
    split; [reflexivity|repeat constructor].
  - vm_compute. discriminate.
Defined.

(** ** The schedule *)




(** ** Bounds on the predictor calls *)

Lemma windows_calls_le cuda gw args dec words sched indices : ∀ st m,
  length (calls (windows cuda gw args dec words sched indices st m).2)
  ≤ length (calls m) + length indices.
Proof.
  induction indices as [|i rest IH]; intros st m; simpl; [lia|].
  unfold bind.
  pose proof (window_logs cuda gw args dec words sched i st m) as Hlog.
  destruct (window _ _ _ _ _ _ i st m) as [[e|st'] m'] eqn:Hwin; simpl in *.
  - destruct Hlog as [->|[pre ->]]; [lia|]. rewrite length_app. simpl. lia.
  - specialize (IH st' m').
    destruct Hlog as [Hl|[pre Hl]]; rewrite Hl in IH;
      [|rewrite length_app in IH; simpl in IH]; lia.
Qed.

(** X6.  Whatever the inputs, a run invokes the predictor at most 59
    times, and never more often than the schedule asks for. *)
Theorem predictor_calls_bounded cuda gw (args : Args) (dec : Decoder) lm
    (words : list word) seed_seq verbose :
  let m := (generate_gestures cuda gw args dec lm words seed_seq verbose
              empty_mem).2 in
  length (calls m) ≤ 59 ∧
  match prepare args dec lm words seed_seq with
  | inr (sched, _) => Z.of_nat (length (calls m)) ≤ Z.max 0 (num_subdivision sched)
  | inl _ => calls m = []
  end%Z.
Proof.
  cbn zeta. rewrite generate_gestures_unfold.
  destruct (prepare args dec lm words seed_seq) as [e|[sched st0]];
    [simpl; split; [lia|done]|].
  cbn zeta. unfold bind.
  pose proof (windows_calls_le cuda gw args dec words sched
                (seq 0 (Z.to_nat (Z.min (num_subdivision sched) subdivision_cap)))
                st0 empty_mem) as Hle.
  rewrite length_seq in Hle. simpl in Hle.
  destruct (windows _ _ _ _ _ _ _ st0 empty_mem) as [[e|st] m1]; simpl in *.
  - unfold subdivision_cap in Hle. split; lia.
  - destruct (heap_only_aggregate verbose
                (Z.min (num_subdivision sched) subdivision_cap) st m1) as [-> _].
    unfold subdivision_cap in Hle. split; lia.
Qed.

(** ** Divisions by zero in the schedule *)





(** ** The transcript loop *)


Lemma length_omap_le {A B} (f : A → option B) (l : list A) :
  length (omap f l) ≤ length l.
Proof. induction l as [|x l IH]; csimpl; [done|]. destruct (f x); simpl; lia. Qed.

Section TranscriptProofs.

Variable py_float : string → result Q.
Variable normalize_string : string → string.

Lemma read_transcript_kept (transcript : list subtitle) :
  ∀ (times : list (Q * Q)) word_list,
  Forall2 (λ entry t,
             py_float (str_init (sub_start_time entry)) = inr t.1 ∧
             py_float (str_init (sub_end_time entry)) = inr t.2)
          transcript times →
  read_transcript py_float normalize_string transcript word_list
  = inr (word_list
         ++ omap (λ et, kept_word normalize_string et.1 et.2)
                 (zip transcript times)).
Proof.
  induction transcript as [|entry rest IH]; intros times word_list Hparse.
  { apply Forall2_nil_inv_l in Hparse as ->. simpl. by rewrite app_nil_r. }
  apply Forall2_cons_inv_l in Hparse as (t & times' & [Hs He] & Hrest & ->).
  simpl. rewrite Hs, He. simpl. unfold kept_word at 1. simpl.
  case_decide.
  - rewrite (IH times' _ Hrest). by rewrite <- (assoc_L (++)).
  - by rewrite (IH times' _ Hrest).
Qed.

(** X8.  When every time of the transcript parses, the word list is the
    transcript in its order, with the normalised words and the parsed times,
    without the entries whose normalised word is empty. *)
Theorem read_transcript_filter (transcript : list subtitle)
    (times : list (Q * Q)) :
  Forall2 (λ entry t,
             py_float (str_init (sub_start_time entry)) = inr t.1 ∧
             py_float (str_init (sub_end_time entry)) = inr t.2)
          transcript times →
  ∃ word_list,
    read_transcript py_float normalize_string transcript [] = inr word_list ∧
    word_list = omap (λ et, kept_word normalize_string et.1 et.2)
                     (zip transcript times) ∧
    length word_list ≤ length transcript ∧
    (∀ wd, wd ∈ word_list →
       0 < String.length (w_text wd) ∧
       ∃ entry, entry ∈ transcript ∧
                w_text wd = normalize_string (sub_word entry) ∧
                py_float (str_init (sub_start_time entry)) = inr (w_start wd) ∧
                py_float (str_init (sub_end_time entry)) = inr (w_end wd)).
Proof.
  intros Hparse. eexists. split; [by apply read_transcript_kept|].
  split; [done|]. split.
  { etrans; [apply length_omap_le|]. rewrite length_zip. lia. }
  intros wd Hwd. simpl in Hwd.
  apply list_elem_of_omap in Hwd as ([entry t] & Hin & Hkept).
  unfold kept_word in Hkept. simpl in Hkept.
  case_decide as Hlen; [|done]. injection Hkept as <-. simpl.
  split; [done|]. exists entry.
  apply list_elem_of_lookup in Hin as [i Hi].
  apply lookup_zip_with_Some in Hi as (e' & t' & [= <- <-] & He & Ht).
  destruct (Forall2_lookup_lr _ _ _ _ _ _ Hparse He Ht) as [Hs Hen].
  split; [by eapply list_elem_of_lookup_2|]. done.
Qed.

Lemma read_transcript_app (good rest : list subtitle) (times : list (Q * Q)) :
  ∀ word_list,
  Forall2 (λ entry t,
             py_float (str_init (sub_start_time entry)) = inr t.1 ∧
             py_float (str_init (sub_end_time entry)) = inr t.2)
          good times →
  read_transcript py_float normalize_string (good ++ rest) word_list
  = read_transcript py_float normalize_string rest
      (word_list ++ omap (λ et, kept_word normalize_string et.1 et.2)
                         (zip good times)).
Proof.
  revert times. induction good as [|entry good IH]; intros times word_list Hparse.
  { apply Forall2_nil_inv_l in Hparse as ->. simpl. by rewrite app_nil_r. }
  apply Forall2_cons_inv_l in Hparse as (t & times' & [Hs He] & Hrest & ->).
  simpl. rewrite Hs, He. simpl. unfold kept_word at 1. simpl.
  case_decide.
  - rewrite (IH times' _ Hrest). by rewrite <- (assoc_L (++)).
  - by rewrite (IH times' _ Hrest).
Qed.

(** X9.  The first time that does not parse ends the loop with the parser's
    exception, whatever follows and even if the word of that entry would
    have been dropped; a start time is parsed before an end time. *)
Theorem read_transcript_first_error (good rest : list subtitle)
    (bad : subtitle) (times : list (Q * Q)) (e : exn) :
  Forall2 (λ entry t,
             py_float (str_init (sub_start_time entry)) = inr t.1 ∧
             py_float (str_init (sub_end_time entry)) = inr t.2)
          good times →
  py_float (str_init (sub_start_time bad)) = inl e ∨
  ((∃ s, py_float (str_init (sub_start_time bad)) = inr s) ∧
   py_float (str_init (sub_end_time bad)) = inl e) →
  read_transcript py_float normalize_string (good ++ bad :: rest) [] = inl e.
Proof.
  intros Hgood Hbad. rewrite (read_transcript_app good _ times [] Hgood).
  simpl. destruct Hbad as [->|[[s ->] ->]]; done.
Qed.


Variables (cuda : bool) (gw : list word → Q → Q → list word).
Variable make_mocap_data : matrix → result matrix.

(** X11.  A transcript none of whose words survives normalisation (the
    empty transcript included) makes [main] fail with the [IndexError] of
    [words[-1]], before any predictor call and without writing a file. *)
Theorem main_without_words (args : Args) (dec : Decoder) lm
    (transcript : list subtitle) (times : list (Q * Q)) stem m0 :
  Forall2 (λ entry t,
             py_float (str_init (sub_start_time entry)) = inr t.1 ∧
             py_float (str_init (sub_end_time entry)) = inr t.2)
          transcript times →
  Forall (λ entry, String.length (normalize_string (sub_word entry)) = 0)
         transcript →
  main_transcript py_float normalize_string cuda gw make_mocap_data args dec
    lm transcript stem m0 = (inl IndexError, m0).
Proof.
  intros Hparse Hempty.
  assert (read_transcript py_float normalize_string transcript [] = inr [])
    as Hread.
  { rewrite (read_transcript_kept transcript times [] Hparse). simpl. f_equal.
    clear Hparse. revert times.
    induction Hempty as [|entry rest He _ IH]; intros [|t times]; try done.
    csimpl. unfold kept_word at 1. simpl. rewrite He.
    rewrite decide_False by lia. apply IH. }
  unfold main_transcript.
  rewrite (bind_inr _ _ _ _ _ (lift_inr _ _ m0 Hread)).
  rewrite main_inference_unfold, generate_gestures_unfold. done.
Qed.

End TranscriptProofs.

Lemma read_transcript_filter_witness :
  ∃ word_list,
    read_transcript (λ s, if String.eqb s "1.5" then inr (3 # 2) else inr 0%Q)
      (λ s, if String.eqb s "uh" then "" else s)
      [Subtitle "0s" "1.5s" "hello"; Subtitle "1.5s" "2s" "uh"] []
    = inr word_list ∧
    word_list = [Word "hello" 0 (3 # 2)].
Proof.
  destruct (read_transcript_filter
              (λ s, if String.eqb s "1.5" then inr (3 # 2) else inr 0%Q)
              (λ s, if String.eqb s "uh" then "" else s)
              [Subtitle "0s" "1.5s" "hello"; Subtitle "1.5s" "2s" "uh"]
              [(0%Q, 3 # 2); (3 # 2, 0%Q)])
    as (word_list & Hread & -> & _).
  - repeat constructor.
  - eexists. split; [exact Hread|]. reflexivity.
Defined.

Lemma read_transcript_first_error_witness :
  read_transcript (λ s, if String.eqb s "" then inl ValueError else inr 0%Q)
    (λ s, "")
    ([Subtitle "0s" "1s" "hello"] ++ Subtitle "2s" "s" "uh" :: [])
    [] = inl ValueError.
Proof.
  apply (read_transcript_first_error
           (λ s, if String.eqb s "" then inl ValueError else inr 0%Q)
           (λ s, "") [Subtitle "0s" "1s" "hello"] [] (Subtitle "2s" "s" "uh")
           [(0%Q, 0%Q)] ValueError).
  - repeat constructor.
  - right. split; [by exists 0%Q|reflexivity].
Defined.

Lemma main_without_words_witness :
  main_transcript (λ s, inr 0%Q) (λ s, "") false words_in_range (λ t, inr t)
    (mk_args 3 1 1 [0%Q] [1%Q]) (const_decoder 1 [[10%Q]; [20%Q]; [30%Q]])
    demo_vocab [Subtitle "0s" "1s" "uh"] "clip" empty_mem
  = (inl IndexError, empty_mem).
Proof.
  apply (main_without_words (λ s, inr 0%Q) (λ s, "") false words_in_range
           (λ t, inr t) (mk_args 3 1 1 [0%Q] [1%Q])
           (const_decoder 1 [[10%Q]; [20%Q]; [30%Q]]) demo_vocab
           [Subtitle "0s" "1s" "uh"] [(0%Q, 0%Q)] "clip" empty_mem).
  - repeat constructor.
  - repeat constructor.
Defined.

(** ** The text handed to each call *)

Lemma windows_calls_text cuda gw args dec words sched indices : ∀ st m,
  ∃ cs,
    calls (windows cuda gw args dec words sched indices st m).2 = calls m ++ cs ∧
    ∀ j c, cs !! j = Some c →
      ∃ i, indices !! j = Some i ∧
           in_text c = in_text (window_call gw words sched i st []) ∧
           words_lengths c = Z.of_nat (length (in_text c)).
Proof.
  induction indices as [|i rest IH]; intros st m; simpl.
  { exists []. rewrite app_nil_r. split; [done|]. intros j c.
    by rewrite lookup_nil. }
  unfold bind. rewrite window_unfold.
  destruct (window_seed args dec i st (heap m)) as [e|pre]; simpl.
  { exists []. rewrite app_nil_r. split; [done|]. intros j c.
    by rewrite lookup_nil. }
  set (c0 := window_call gw words sched i st pre).
  assert (∀ j c, [c0] !! j = Some c →
            ∃ i0, (i :: rest) !! j = Some i0 ∧
                  in_text c = in_text (window_call gw words sched i0 st []) ∧
                  words_lengths c = Z.of_nat (length (in_text c))) as Hone.
  { intros [|j] c; simpl; [|by rewrite lookup_nil].
    intros [= <-]. by exists i. }
  destruct (invoke dec c0) as [e|raw]; simpl.
  { by exists [c0]. }
  pose proof (heap_only_window_rest cuda args st pre raw
                (Mem (heap m) (calls m ++ [c0]) (written m))) as [Hc _].
  destruct (window_rest cuda args st pre raw _) as [[e|st'] m'] eqn:Hrest;
    simpl in *.
  { exists [c0]. by rewrite Hc. }
  apply window_rest_inv in Hrest as [_ Hlm].
  destruct (IH st' m') as (cs & Hcs & Htext).
  exists (c0 :: cs). split.
  { by rewrite Hcs, Hc, <- (assoc_L (++)). }
  intros [|j] c; simpl.
  { intros [= <-]. by exists i. }
  intros Hj. destruct (Htext j c Hj) as (i0 & Hi0 & Hin & Hlen).
  exists i0. split; [done|]. split; [|done].
  rewrite Hin. unfold window_call. simpl. by rewrite Hlm.
Qed.

Lemma make_schedule_times (args : Args) (clip_length : Q) (sched : schedule) :
  make_schedule args clip_length = inr sched →
  unit_time sched
  = (inject_Z (n_poses args) / inject_Z (motion_resampling_framerate args))%Q ∧
  stride_time sched
  = (inject_Z (n_poses args - n_pre_poses args)
     / inject_Z (motion_resampling_framerate args))%Q.
Proof.
  unfold make_schedule, py_truediv.
  destruct (Qeq_bool (inject_Z (motion_resampling_framerate args)) 0);
    [discriminate|].
  simpl. destruct (Qlt_le_dec _ _); simpl.
  { by intros [= <-]. }
  destruct (Qeq_bool _ 0); [discriminate|]. simpl. by intros [= <-].
Qed.

(** X12.  In every run, failed or not, the call of window [i] carries the
    words that [get_words_in_time_range] returns for the time window that
    starts at [i * (n_poses - n_pre_poses) / framerate] and lasts [n_poses /
    framerate], encoded between the start and end sentinels, together with
    the length of that sequence. *)
Theorem call_time_windows cuda gw (args : Args) (dec : Decoder) lm
    (words : list word) seed_seq verbose (sched : schedule) (st0 : locals) :
  prepare args dec lm words seed_seq = inr (sched, st0) →
  let m := (generate_gestures cuda gw args dec lm words seed_seq verbose
              empty_mem).2 in
  let unit_time :=
    (inject_Z (n_poses args) / inject_Z (motion_resampling_framerate args))%Q in
  let stride_time :=
    (inject_Z (n_poses args - n_pre_poses args)
     / inject_Z (motion_resampling_framerate args))%Q in
  ∀ i c, calls m !! i = Some c →
    let start_time := (inject_Z (Z.of_nat i) * stride_time)%Q in
    let word_seq := gw words start_time (start_time + unit_time)%Q in
    in_text c = SOS_token lm :: (word_index lm <$> word_seq) ++ [EOS_token lm] ∧
    words_lengths c = Z.of_nat (length word_seq + 2).
Proof.
  intros Hprep m unit_time' stride_time' i c Hc start_time word_seq.
  subst m. rewrite generate_gestures_unfold, Hprep in Hc. cbn zeta in Hc.
  destruct (prepare_inv _ _ _ _ _ _ _ Hprep) as (w & pre & _ & _ & Hsched & ->).
  apply make_schedule_times in Hsched as [Hu Hs].
  unfold bind in Hc.
  destruct (windows_calls_text cuda gw args dec words sched
              (seq 0 (Z.to_nat (Z.min (num_subdivision sched) subdivision_cap)))
              (Locals pre None [] lm) empty_mem) as (cs & Hcs & Htext).
  destruct (windows _ _ _ _ _ _ _ _ empty_mem) as [[e|st] m1] eqn:Hwin;
    simpl in Hc, Hcs.
  - rewrite Hcs in Hc. apply Htext in Hc as (i0 & Hi0 & Hin & Hlen).
    apply lookup_seq in Hi0 as [-> _]. simpl in Hin.
    rewrite Hu, Hs in Hin. fold unit_time' stride_time' in Hin.
    fold start_time in Hin. fold word_seq in Hin.
    split; [done|]. rewrite Hlen, Hin. simpl.
    rewrite length_app, length_fmap. simpl. f_equal. lia.
  - pose proof (heap_only_aggregate verbose
                  (Z.min (num_subdivision sched) subdivision_cap) st m1)
      as [Hagg _].
    rewrite Hagg, Hcs in Hc. apply Htext in Hc as (i0 & Hi0 & Hin & Hlen).
    apply lookup_seq in Hi0 as [-> _]. simpl in Hin.
    rewrite Hu, Hs in Hin. fold unit_time' stride_time' in Hin.
    fold start_time in Hin. fold word_seq in Hin.
    split; [done|]. rewrite Hlen, Hin. simpl.
    rewrite length_app, length_fmap. simpl. f_equal. lia.
Qed.

Lemma call_time_windows_witness :
  let words := [Word "hello" 0 (1 # 2); Word "world" 3 5] in
  let c := Call [1; 3; 2]%Z 3 [[20%Q]; [30%Q]] in
  let start_time := (inject_Z (Z.of_nat 1) * (inject_Z (3 - 2) / inject_Z 1))%Q in
  let word_seq :=
    words_in_range words start_time (start_time + inject_Z 3 / inject_Z 1)%Q in
  in_text c = 1%Z :: (word_index demo_vocab <$> word_seq) ++ [2%Z] ∧
  words_lengths c = Z.of_nat (length word_seq + 2).
Proof.
  intros words c.
  refine (call_time_windows false words_in_range (mk_args 3 2 1 [0%Q] [1%Q])
            (const_decoder 1 [[10%Q]; [20%Q]; [30%Q]]) demo_vocab words None
            true (Schedule (3 / 1) ((3 - 2) / 1) 3)
            (Locals [[0%Q]; [0%Q]] None [] demo_vocab) _ 1 c _).
  - reflexivity.
  - vm_compute. reflexivity.
Defined.

(** ** The whole of [main] *)




(** ** Statistics of the wrong width *)

(** X15.  Un-normalisation does not check the statistics beforehand: a
    standard deviation, or a mean, whose length is neither one nor the width
    of the frames makes it raise numpy's broadcasting [ValueError] on the
    first frame. *)
Theorem unnormalize_width_mismatch (args : Args) (r : frame) (poses : matrix) :
  length r ≠ 1 →
  (length (data_std args) ≠ length r ∧ length (data_std args) ≠ 1) ∨
  (length (data_std args) = length r ∧
   length (data_mean args) ≠ length r ∧ length (data_mean args) ≠ 1) →
  unnormalize args (r :: poses) = inl ValueError.
Proof.
  intros Hr H. unfold unnormalize.
  destruct H as [[Hs Hs1]|(Hs & Hm & Hm1)].
  - unfold np_broadcast2 at 1. rewrite length_fmap.
    rewrite decide_False by done.
    destruct r as [|x [|y r]]; [|done|];
      (destruct (data_std args) as [|a [|b std]]; done).
  - rewrite np_broadcast2_same by (by rewrite length_fmap).
    simpl. unfold np_broadcast2 at 1.
    rewrite length_zip_with, length_fmap, Hs, Nat.min_id.
    rewrite decide_False by done.
    destruct r as [|x [|y r]]; [|done|];
      (destruct (data_std args) as [|a [|b std]]; try done;
       destruct (data_mean args) as [|c [|d mean]]; done).
Qed.

Lemma unnormalize_width_mismatch_witness :
  unnormalize (mk_args 3 2 1 [0%Q; 0%Q] [1%Q; 1%Q; 1%Q]) ([1%Q; 2%Q] :: [])
  = inl ValueError.
Proof.
  apply (unnormalize_width_mismatch
           (mk_args 3 2 1 [0%Q; 0%Q] [1%Q; 1%Q; 1%Q]) [1%Q; 2%Q] []).
  - simpl. lia.
  - left. simpl. lia.
Defined.

(** ** A schedule without windows *)

(** X16.  When the schedule has no window the loop is skipped and nothing
    is checked before the report and the aggregation: a verbose run whose
    window count is zero ends in the [ZeroDivisionError] of the average
    time, every other run in the [ValueError] of [np.vstack] on an empty
    list; the predictor is not invoked. *)
Theorem empty_loop_outcome cuda gw (args : Args) (dec : Decoder) lm
    (words : list word) seed_seq verbose (sched : schedule) (st0 : locals) :
  prepare args dec lm words seed_seq = inr (sched, st0) →
  (num_subdivision sched ≤ 0)%Z →
  generate_gestures cuda gw args dec lm words seed_seq verbose empty_mem
  = (inl (if verbose && (num_subdivision sched =? 0)%Z
          then ZeroDivisionError else ValueError),
     empty_mem).
Proof.
  intros Hprep Hnum. rewrite generate_gestures_unfold, Hprep. cbn zeta.
  destruct (prepare_inv _ _ _ _ _ _ _ Hprep) as (w & pre & _ & _ & _ & ->).
  replace (Z.min (num_subdivision sched) subdivision_cap)
    with (num_subdivision sched) by (unfold subdivision_cap; lia).
  replace (Z.to_nat (num_subdivision sched)) with 0 by lia.
  simpl. unfold bind at 1, ret at 1. unfold aggregate.
  destruct verbose; [destruct (num_subdivision sched =? 0)%Z|]; done.
Qed.

Lemma empty_loop_outcome_witness :
  generate_gestures false words_in_range (mk_args 1 3 1 [0%Q] [1%Q])
    (const_decoder 1 [[10%Q]]) demo_vocab [Word "hello" 0 3] None true
    empty_mem
  = (inl ZeroDivisionError, empty_mem).
Proof.
  apply (empty_loop_outcome false words_in_range (mk_args 1 3 1 [0%Q] [1%Q])
           (const_decoder 1 [[10%Q]]) demo_vocab [Word "hello" 0 3] None true
           (Schedule (1 / 1) ((1 - 3) / 1) 0)
           (Locals [[0%Q]; [0%Q]; [0%Q]] None [] demo_vocab)).
  - reflexivity.
  - simpl. lia.
Defined.

(** ** A predictor that returns fewer frames than the overlap *)

Lemma first_window_run cuda gw args dec words sched pre lm (raw : matrix) :
  invoke dec (window_call gw words sched 0 (Locals pre None [] lm) pre)
    = inr raw →
  ∃ q h,
    window cuda gw args dec words sched 0 (Locals pre None [] lm) empty_mem
    = (inr (Locals pre (Some 0) [NdArray q 0 (length raw)] lm),
       Mem h [window_call gw words sched 0 (Locals pre None [] lm) pre] []) ∧
    h !! 0 = Some raw.
Proof.
  intros Hinv. rewrite window_unfold. unfold window_seed. simpl.
  rewrite Hinv. unfold window_rest.
  rewrite (bind_inr _ _ _ _ _ (alloc_eq _ _)). simpl.
  erewrite bind_inr; last by apply (to_numpy_eq cuda 0 _ raw).
  rewrite (bind_inr _ _ _ _ _ (smooth_transition_first _ _ _)).
  unfold ret. destruct cuda; simpl; eauto.
Qed.

Lemma windows_aggregate_calls cuda gw args dec words sched indices verbose
    num st m :
  ∃ cs,
    calls (bind (windows cuda gw args dec words sched indices st)
             (aggregate verbose num) m).2 = calls m ++ cs.
Proof.
  destruct (windows_calls_text cuda gw args dec words sched indices st m)
    as (cs & Hcs & _).
  exists cs. unfold bind.
  destruct (windows _ _ _ _ _ _ _ _ m) as [[e|st'] m'] eqn:Hwin;
    simpl in *; [done|].
  by destruct (heap_only_aggregate verbose num st' m') as [-> _].
Qed.

(** X17.  The number of frames the predictor returns is not checked.
    When the first window returns fewer frames than the overlap [n] and a
    second window is scheduled, the assignment of the next seed decides: a
    single frame is broadcast, so the second seed is that frame [n] times;
    any other number of frames makes the run end in torch's [RuntimeError],
    after one predictor call. *)
Theorem short_predictor_output cuda gw (args : Args) (dec : Decoder) lm
    (words : list word) seed_seq verbose (sched : schedule) (st0 : locals)
    (n : nat) (raw : matrix) :
  prepare args dec lm words seed_seq = inr (sched, st0) →
  n_pre_poses args = Z.of_nat n →
  (2 ≤ num_subdivision sched)%Z →
  invoke dec (window_call gw words sched 0 st0 (pre_seq st0)) = inr raw →
  Forall (λ r, length r = pose_dim dec) raw →
  length raw < n →
  let run := generate_gestures cuda gw args dec lm words seed_seq verbose
               empty_mem in
  let c0 := window_call gw words sched 0 st0 (pre_seq st0) in
  match raw with
  | [r] => ∃ c1 cs, calls run.2 = c0 :: c1 :: cs ∧ seed c1 = replicate n r
  | _ => run.1 = inl RuntimeError ∧ calls run.2 = [c0]
  end.
Proof.
  intros Hprep Hn Hnum Hinv Hwidth Hshort.
  destruct (prepare_inv _ _ _ _ _ _ _ Hprep) as (w & pre & _ & Hpre & _ & ->).
  apply initial_pre_seq_shape in Hpre as [Hlpre _].
  rewrite Hn, Nat2Z.id in Hlpre. simpl in Hinv |- *.
  set (c0 := window_call gw words sched 0 (Locals pre None [] lm) pre) in *.
  destruct (first_window_run cuda gw args dec words sched pre lm raw Hinv)
    as (q & h & Hwin & Hh).
  fold c0 in Hwin.
  set (st1 := Locals pre (Some 0) [NdArray q 0 (length raw)] lm) in *.
  set (num := Z.min (num_subdivision sched) subdivision_cap).
  assert (∃ k, generate_gestures cuda gw args dec lm words seed_seq verbose
                 empty_mem
               = bind (window cuda gw args dec words sched 1 st1)
                   (λ st', bind (windows cuda gw args dec words sched
                                   (seq 2 k) st')
                             (aggregate verbose num))
                   (Mem h [c0] [])) as [k Hrun].
  { rewrite generate_gestures_unfold, Hprep. cbn zeta. fold num.
    destruct (Z.to_nat num) as [|[|k]] eqn:HN;
      [unfold num, subdivision_cap in HN; lia..|].
    exists k. change (seq 0 (S (S k))) with (0 :: 1 :: seq 2 k).
    cbn [windows]. rewrite !bind_assoc.
    rewrite (bind_inr _ _ _ _ _ Hwin).
    by rewrite bind_assoc. }
  assert (window_seed args dec 1 st1 h
          = match raw with
            | [r] => inr (replicate n r)
            | _ => inl RuntimeError
            end) as Hseed.
  { unfold window_seed. rewrite decide_True by lia. simpl.
    rewrite Hh, Hlpre, Hn. simpl. rewrite py_slice_tail.
    rewrite decide_False by lia.
    replace (length raw - n) with 0 by lia. rewrite drop_0.
    unfold torch_setitem.
    rewrite (broadcast_rows_same _ _ _ Hwidth). simpl.
    by rewrite decide_False by lia. }
  unfold bind in Hrun at 1. rewrite window_unfold in Hrun.
  cbn [heap calls written] in Hrun. rewrite Hseed in Hrun. clear Hseed.
  destruct raw as [|r [|r' raw']]; [by rewrite Hrun| |by rewrite Hrun].
  cbn zeta in Hrun.
  set (c1 := window_call gw words sched 1 st1 (replicate n r)) in *.
  exists c1.
  destruct (invoke dec c1) as [e|raw1].
  { exists []. by rewrite Hrun. }
  pose proof (heap_only_window_rest cuda args st1 (replicate n r) raw1
                (Mem h ([c0] ++ [c1]) [])) as [Hc _].
  destruct (window_rest cuda args st1 (replicate n r) raw1 _)
    as [[e|st2] m2] eqn:Hrest; simpl in Hc.
  { exists []. rewrite Hrun. simpl. by rewrite Hc. }
  destruct (windows_aggregate_calls cuda gw args dec words sched (seq 2 k)
              verbose num st2 m2) as [cs Hcs].
  exists cs. split; [|done]. by rewrite Hrun, Hcs, Hc.
Qed.

Lemma short_predictor_output_witness :
  let dec := const_decoder 1 [[10%Q]; [20%Q]] in
  let args := mk_args 4 3 1 [0%Q] [1%Q] in
  let run := generate_gestures false words_in_range args dec demo_vocab
               [Word "hello" 0 5] None true empty_mem in
  run.1 = inl RuntimeError ∧
  calls run.2 = [window_call words_in_range [Word "hello" 0 5]
                   (Schedule (4 / 1) ((4 - 3) / 1) 2) 0
                   (Locals [[0%Q]; [0%Q]; [0%Q]] None [] demo_vocab)
                   [[0%Q]; [0%Q]; [0%Q]]].
Proof.
  intros dec args.
  apply (short_predictor_output false words_in_range args dec demo_vocab
           [Word "hello" 0 5] None true (Schedule (4 / 1) ((4 - 3) / 1) 2)
           (Locals [[0%Q]; [0%Q]; [0%Q]] None [] demo_vocab) 3
           [[10%Q]; [20%Q]]).
  - reflexivity.
  - reflexivity.
  - simpl. lia.
  - reflexivity.
  - repeat constructor.
  - simpl. lia.
Defined.

(** ** Shapes *)

(** X18.  With an overlap [1 <= n <= T] and a predictor that returns [T]
    frames of [pose_dim] channels, the returned sequence is a matrix of
    [T + (N - 1) * (T - n)] frames of [pose_dim] channels, [N] being the
    number of windows run. *)
Theorem generated_shape cuda gw (args : Args) (dec : Decoder) lm
    (words : list word) seed_seq verbose (sched : schedule) (st0 : locals)
    (n T : nat) :
  prepare args dec lm words seed_seq = inr (sched, st0) →
  n_pre_poses args = Z.of_nat n → 1 ≤ n → n ≤ T →
  (∀ it wl s, shape n (pose_dim dec) s →
     ∃ raw, forward dec it wl s = inr raw ∧ shape T (pose_dim dec) raw) →
  (1 ≤ Z.min (num_subdivision sched) 59)%Z →
  ∃ out m,
    generate_gestures cuda gw args dec lm words seed_seq verbose empty_mem
      = (inr out, m) ∧
    shape (T + (Z.to_nat (Z.min (num_subdivision sched) 59) - 1) * (T - n))
      (pose_dim dec) out.
Proof.
  intros Hprep Hn Hn1 HnT Hdec HN.
  destruct (generate_gestures_wb cuda gw args dec words sched lm n T
              Hn Hn1 HnT Hdec words seed_seq verbose st0 empty_mem
              Hprep eq_refl ltac:(lia))
    as (out & m & cs & st & Hrun & _ & _ & _ & _ & _ & _ & Hout & Hwidth).
  exists out, m. split; [done|]. split; [|done].
  by change subdivision_cap with 59%Z in Hout.
Qed.

Lemma generated_shape_witness :
  let dec := const_decoder 1 [[10%Q]; [20%Q]; [30%Q]] in
  ∃ out m,
    generate_gestures false words_in_range (mk_args 3 2 1 [0%Q] [1%Q]) dec
      demo_vocab [Word "hello" 0 5] None true empty_mem = (inr out, m) ∧
    shape (3 + (Z.to_nat (Z.min 3 59) - 1) * (3 - 2)) 1 out.
Proof.
  intros dec.
  apply (generated_shape false words_in_range (mk_args 3 2 1 [0%Q] [1%Q]) dec
           demo_vocab [Word "hello" 0 5] None true
           (Schedule (3 / 1) ((3 - 2) / 1) 3)
           (Locals [[0%Q]; [0%Q]] None [] demo_vocab) 2 3).
  - reflexivity.
  - reflexivity.
  - lia.
  - lia.
  - intros it wl s _. eexists. split; [reflexivity|].
    split; [reflexivity|repeat constructor].
  - vm_compute. discriminate.
Defined.
